(** * react-native-responsive-hook: unit conversion and breakpoint engine

    A shallow embedding of [constants.js], of the hook [useResponsive]
    (useResponsiveScreen.js) and of the top-level module [index.js].

    Numbers.  A JavaScript number is an IEEE-754 double: [NaN], one of
    the two infinities, or a finite value, kept here as the rational it
    stands for.  A product, a quotient and the value of a numeric literal
    are the exact result rounded to the nearest double, ties to even, with
    overflow to an infinity and underflow through the subnormals, as
    IEEE 754 defines them; [Math.floor], [Math.round], [Math.min],
    [Math.max] and the comparisons are exact.  The sign of zero is not
    kept: no division by zero occurs in the package, and [-0] equals [0]
    in every comparison.

    Strings are kept as the bytes of their UTF-8 encoding. *)

From Stdlib Require Import ZArith QArith Qround Qpower Qreduction.
From Stdlib Require Import Bool List String Ascii Lia Lqa.
Import ListNotations.
Open Scope string_scope.
Open Scope Q_scope.

(* ===================================================================== *)
(** ** JavaScript numbers                                                 *)
(* ===================================================================== *)

Module JS.

Inductive number : Type :=
| NaN
| PosInf
| NegInf
| Fin (q : Q).

Coercion Fin : Q >-> number.

Definition isFinite (x : number) : bool :=
  match x with Fin _ => true | _ => false end.

(** The order of two numbers; [None] when one of them is [NaN]
    (every comparison with [NaN] is false). *)
Definition compare (x y : number) : option comparison :=
  match x, y with
  | NaN, _ | _, NaN => None
  | PosInf, PosInf => Some Eq
  | NegInf, NegInf => Some Eq
  | PosInf, _ => Some Gt
  | _, PosInf => Some Lt
  | NegInf, _ => Some Lt
  | _, NegInf => Some Gt
  | Fin a, Fin b => Some (a ?= b)
  end.

(** [x < y], [x > y], [x <= y], [x >= y] and [x === y]. *)
Definition lt (x y : number) : bool :=
  match compare x y with Some Lt => true | _ => false end.
Definition gt (x y : number) : bool :=
  match compare x y with Some Gt => true | _ => false end.
Definition le (x y : number) : bool :=
  match compare x y with Some Lt | Some Eq => true | _ => false end.
Definition ge (x y : number) : bool :=
  match compare x y with Some Gt | Some Eq => true | _ => false end.
Definition eqb (x y : number) : bool :=
  match compare x y with Some Eq => true | _ => false end.

Definition negInf (negative : bool) : number :=
  if negative then NegInf else PosInf.

(** Sign of an infinity times the sign of a finite factor. *)
Definition infTimes (negative : bool) (q : Q) : number :=
  match q ?= 0 with
  | Eq => NaN
  | Gt => negInf negative
  | Lt => negInf (negb negative)
  end.

(** *** Rounding to binary64 *)

Definition pow2 (e : Z) : Q := 2 ^ e.

(** The floor of the binary logarithm of a positive rational. *)
Definition ilog2 (q : Q) : Z :=
  let k := (Z.log2 (Qnum q) - Z.log2 (Zpos (Qden q)))%Z in
  if Qle_bool (pow2 k) q then k else (k - 1)%Z.

(** The nearest integer, a tie going to the even one. *)
Definition nearestEven (x : Q) : Z :=
  let f := Qfloor x in
  match Qcompare (x - inject_Z f) (1 # 2) with
  | Lt => f
  | Gt => (f + 1)%Z
  | Eq => if Z.even f then f else (f + 1)%Z
  end.

(** The exponent of the last place of the doubles around a positive [a]:
    53 significant bits, and no exponent below that of the subnormals. *)
Definition exponent64 (a : Q) : Z := Z.max (-1074) (ilog2 a - 52).

(** The multiple of [2 ^ exponent64 a] nearest to a positive [a]. *)
Definition nearest64 (a : Q) : Q :=
  let e := exponent64 a in
  inject_Z (nearestEven (a / pow2 e)) * pow2 e.

(** The double nearest to [q]; an infinity from [2 ^ 1024] on. *)
Definition round64 (q : Q) : number :=
  match Qcompare q 0 with
  | Eq => Fin 0
  | Gt => let r := nearest64 q in
          if Qle_bool (pow2 1024) r then PosInf else Fin (Qred r)
  | Lt => let r := nearest64 (- q) in
          if Qle_bool (pow2 1024) r then NegInf else Fin (Qred (- r))
  end.

(** A numeric literal of the source that is not a whole number. *)
Definition literal (q : Q) : number := round64 q.

(** [q] is the value of a double. *)
Definition isDouble (q : Q) : bool :=
  match round64 q with
  | Fin r => Qeq_bool r q
  | _ => false
  end.

(** [x * y] *)
Definition mul (x y : number) : number :=
  match x, y with
  | NaN, _ | _, NaN => NaN
  | Fin a, Fin b => round64 (a * b)
  | PosInf, Fin b | Fin b, PosInf => infTimes false b
  | NegInf, Fin b | Fin b, NegInf => infTimes true b
  | PosInf, PosInf | NegInf, NegInf => PosInf
  | PosInf, NegInf | NegInf, PosInf => NegInf
  end.

(** [x / y]; a zero divisor is taken as [+0]. *)
Definition div (x y : number) : number :=
  match x, y with
  | NaN, _ | _, NaN => NaN
  | Fin a, Fin b =>
      match b ?= 0 with
      | Eq => match a ?= 0 with Eq => NaN | Gt => PosInf | Lt => NegInf end
      | _ => round64 (a / b)
      end
  | Fin _, (PosInf | NegInf) => Fin 0
  | PosInf, Fin b => match b ?= 0 with Lt => NegInf | _ => PosInf end
  | NegInf, Fin b => match b ?= 0 with Lt => PosInf | _ => NegInf end
  | (PosInf | NegInf), (PosInf | NegInf) => NaN
  end.

(** [Math.floor] *)
Definition floor (x : number) : number :=
  match x with
  | Fin q => Fin (inject_Z (Qfloor q))
  | _ => x
  end.

(** [Math.round]: the nearest integer, a tie going towards [+Infinity]. *)
Definition round (x : number) : number :=
  match x with
  | Fin q => Fin (inject_Z (Qfloor (q + (1 # 2))))
  | _ => x
  end.

(** [Math.max] and [Math.min] of two arguments: [NaN] as soon as one
    argument is. *)
Definition max (x y : number) : number :=
  match compare x y with
  | None => NaN
  | Some Lt => y
  | Some _ => x
  end.

Definition min (x y : number) : number :=
  match compare x y with
  | None => NaN
  | Some Gt => y
  | Some _ => x
  end.

(** *** The order of numbers, as propositions

    [NaN] is related to nothing, itself included. *)
Definition Less (x y : number) : Prop :=
  match x, y with
  | Fin a, Fin b => a < b
  | NegInf, Fin _ | NegInf, PosInf | Fin _, PosInf => True
  | _, _ => False
  end.

Definition Same (x y : number) : Prop :=
  match x, y with
  | Fin a, Fin b => a == b
  | PosInf, PosInf | NegInf, NegInf => True
  | _, _ => False
  end.

Definition LessEq (x y : number) : Prop := Less x y \/ Same x y.

(** *** [parseFloat] *)

(** White space and line terminators of one byte: TAB, LF, VT, FF, CR
    and the space. *)
Definition isWhiteSpace (c : ascii) : bool :=
  match nat_of_ascii c with
  | 9%nat | 10%nat | 11%nat | 12%nat | 13%nat | 32%nat => true
  | _ => false
  end.

(** The first byte of the white space of more than one byte. *)
Definition leadsWhiteSpace (c : ascii) : bool :=
  match nat_of_ascii c with
  | 194%nat | 225%nat | 226%nat | 227%nat | 239%nat => true
  | _ => false
  end.

(** U+00A0. *)
Definition isWhiteSpace2 (c1 c2 : ascii) : bool :=
  match nat_of_ascii c1, nat_of_ascii c2 with
  | 194%nat, 160%nat => true
  | _, _ => false
  end.

(** U+1680, U+2000 to U+200A, U+2028, U+2029, U+202F, U+205F, U+3000 and
    U+FEFF. *)
Definition isWhiteSpace3 (c1 c2 c3 : ascii) : bool :=
  match nat_of_ascii c1, nat_of_ascii c2, nat_of_ascii c3 with
  | 225%nat, 154%nat, 128%nat => true
  | 226%nat, 128%nat, n =>
      ((128 <=? n) && (n <=? 138) || (n =? 168) || (n =? 169)
       || (n =? 175))%nat
  | 226%nat, 129%nat, 159%nat => true
  | 227%nat, 128%nat, 128%nat => true
  | 239%nat, 187%nat, 191%nat => true
  | _, _, _ => false
  end.

Fixpoint trimStart (s : string) : string :=
  match s with
  | String c1 r1 =>
      if isWhiteSpace c1 then trimStart r1
      else if negb (leadsWhiteSpace c1) then s
      else
        match r1 with
        | String c2 r2 =>
            if isWhiteSpace2 c1 c2 then trimStart r2
            else
              match r2 with
              | String c3 r3 =>
                  if isWhiteSpace3 c1 c2 c3 then trimStart r3 else s
              | EmptyString => s
              end
        | EmptyString => s
        end
  | EmptyString => s
  end.

Definition digit (c : ascii) : option Z :=
  let n := Z.of_nat (nat_of_ascii c) in
  if ((48 <=? n) && (n <=? 57))%Z then Some (n - 48)%Z else None.

(** The longest run of decimal digits at the head of [s], with the rest. *)
Fixpoint digits (s : string) : list Z * string :=
  match s with
  | String c r =>
      match digit c with
      | Some d => let (ds, r') := digits r in (d :: ds, r')
      | None => ([], s)
      end
  | EmptyString => ([], s)
  end.

Definition decimal (ds : list Z) : Z :=
  fold_left (fun acc d => (10 * acc + d)%Z) ds 0%Z.

(** [ExponentPart]: [e] or [E], an optional sign, at least one digit.
    An incomplete exponent is not part of the literal. *)
Definition exponent (s : string) : Z :=
  match s with
  | String c r =>
      if (Ascii.eqb c "e" || Ascii.eqb c "E")%bool then
        match r with
        | String "-" r' =>
            match digits r' with ([], _) => 0%Z | (ds, _) => (- decimal ds)%Z end
        | String "+" r' => decimal (fst (digits r'))
        | _ => decimal (fst (digits r))
        end
      else 0%Z
  | EmptyString => 0%Z
  end.

(** [m * 10^e] *)
Definition scale10 (m e : Z) : Q :=
  match e with
  | Zneg p => m # (10 ^ p)
  | _ => inject_Z (m * 10 ^ e)
  end.

(** The value of the longest prefix of [s] that is a
    [StrUnsignedDecimalLiteral], rounded to a double; [NaN] when there is
    none. *)
Definition unsignedLiteral (s : string) : number :=
  if String.prefix "Infinity" s then PosInf else
  let (ip, s1) := digits s in
  match s1 with
  | String "." r =>
      let (fp, s2) := digits r in
      match ip, fp with
      | [], [] => NaN
      | _, _ => round64 (scale10 (decimal (ip ++ fp))
                                 (exponent s2 - Z.of_nat (List.length fp)))
      end
  | _ =>
      match ip with
      | [] => NaN
      | _ => round64 (scale10 (decimal ip) (exponent s1))
      end
  end.

Definition neg (x : number) : number :=
  match x with
  | NaN => NaN
  | PosInf => NegInf
  | NegInf => PosInf
  | Fin q => Fin (- q)
  end.

Definition parseFloat (input : string) : number :=
  match trimStart input with
  | String "-" r => neg (unsignedLiteral r)
  | String "+" r => unsignedLiteral r
  | s => unsignedLiteral s
  end.

(** *** Values

    The arguments the conversion functions are declared for
    ([number | string], or nothing at all). *)
Inductive value : Type :=
| Undefined
| Number (n : number)
| Str (s : string).

(** [typeof v === 'number' ? v : parseFloat(v)]; [parseFloat] starts by
    turning its argument into a string. *)
Definition numberOrParse (v : value) : number :=
  match v with
  | Number n => n
  | Str s => parseFloat s
  | Undefined => parseFloat "undefined"
  end.

(** A parameter declared [(v = d)]: the default replaces [undefined]. *)
Definition withDefault (d : number) (v : value) : value :=
  match v with
  | Undefined => Number d
  | _ => v
  end.

(** *** The order of [for ... in]

    An object is kept as the list of its own properties, in the order in
    which they were created.  [for ... in] visits the keys that are array
    indices first, in ascending order, then the other keys in the order
    of creation. *)

(** The number a key stands for when it is an array index: decimal digits
    with no leading zero, at most [2^32 - 2]. *)
Definition arrayIndex (key : string) : option Z :=
  match digits key with
  | (d :: ds, EmptyString) =>
      let n := decimal (d :: ds) in
      let canonical :=
        match ds with
        | [] => true
        | _ => negb (d =? 0)%Z
        end in
      if (canonical && (n <=? 4294967294)%Z)%bool then Some n else None
  | _ => None
  end.

Fixpoint insertIndexed {V : Type} (i : Z) (p : string * V)
  (sorted : list (Z * (string * V))) : list (Z * (string * V)) :=
  match sorted with
  | [] => [(i, p)]
  | (j, q) :: rest =>
      if (i <? j)%Z then (i, p) :: sorted
      else (j, q) :: insertIndexed i p rest
  end.

(** The properties whose key is an array index, by ascending index. *)
Fixpoint indexed {V : Type} (o : list (string * V))
  : list (Z * (string * V)) :=
  match o with
  | [] => []
  | p :: rest =>
      match arrayIndex (fst p) with
      | Some i => insertIndexed i p (indexed rest)
      | None => indexed rest
      end
  end.

Definition forIn {V : Type} (o : list (string * V)) : list (string * V) :=
  (map snd (indexed o)
   ++ filter (fun p => match arrayIndex (fst p) with
                       | None => true
                       | Some _ => false
                       end) o)%list.

End JS.

Import JS.

(* ===================================================================== *)
(** ** react-native: what the package reads from its host                 *)
(* ===================================================================== *)

Module ReactNative.

(** [useWindowDimensions()] and [Dimensions.get('window')] *)
Record ScaledSize : Type := { width : number; height : number }.

Record host : Type := {
  window : ScaledSize;        (* the current window *)
  PixelRatio_get : number;    (* PixelRatio.get(), the pixel density *)
  Platform_OS : string        (* Platform.OS *)
}.

(** Modelled from the spec: [PixelRatio.roundToNearestPixel] belongs to
    react-native and is not among the sources.  It snaps a layout size to
    the nearest one that is a whole number of physical pixels at the
    device's pixel density, which is plain rounding at density 1:
    [Math.round(layoutSize * ratio) / ratio]. *)
Definition roundToNearestPixel (ratio layoutSize : number) : number :=
  div (round (mul layoutSize ratio)) ratio.

End ReactNative.

Import ReactNative.

(* ===================================================================== *)
(** ** constants.js                                                       *)
(* ===================================================================== *)

Module Constants.

Definition baseDevice : ScaledSize := {| width := 375; height := 812 |}.

Definition baseFontSize : number := 16.

Definition maxFontScaleFactor : number := 2.

(** An object literal with six array-valued properties, each
    [name: [low, high]], in the order in which they are written. *)
Definition breakpoints : list (string * (number * number)) :=
  [ ("group1", (Fin 0, Fin 399));
    ("group2", (Fin 400, Fin 599));
    ("group3", (Fin 600, Fin 767));
    ("group4", (Fin 768, Fin 1007));
    ("group5", (Fin 1008, Fin 1279));
    ("group6", (Fin 1280, Fin 8192)) ].

End Constants.

(* ===================================================================== *)
(** ** useResponsiveScreen.js                                             *)
(* ===================================================================== *)

Module Hook.

(** The body of the loop of [getBreakpointGroup], over the properties of
    the table in the order in which they are visited:
    [if (width >= table[group][0] && width <= table[group][1]) return group;]
    Falling out of the loop returns [undefined], here [None]. *)
Fixpoint firstWithin (visited : list (string * (number * number)))
                     (width : number) : option string :=
  match visited with
  | [] => None
  | (group, (low, high)) :: rest =>
      if ge width low && le width high then Some group
      else firstWithin rest width
  end.

(** [for (let group in table) ...] *)
Definition getBreakpointGroup (table : list (string * (number * number)))
                              (width : number) : option string :=
  firstWithin (forIn table) width.

(** What the hook returns. *)
Record Responsive : Type := {
  isLandscape : bool;
  isPortrait : bool;
  wp : value -> number;
  hp : value -> number;
  vw : value -> number;
  vh : value -> number;
  rem : value -> number;
  rf : value -> number;
  isIOS : bool;
  isAndroid : bool;
  breakpointGroup : option string
}.

Definition useResponsive (rn : host) : Responsive :=
  let width := rn.(window).(width) in
  let height := rn.(window).(height) in
  let isLandscape := gt width height in
  let isPortrait := lt width height in
  let getBreakpointGroup := getBreakpointGroup Constants.breakpoints width in
  let breakpointGroup := getBreakpointGroup in
  let wp := fun widthPercent =>
    let elementWidth := numberOrParse widthPercent in
    roundToNearestPixel rn.(PixelRatio_get)
      (div (mul width elementWidth) 100) in
  let hp := fun heightPercent =>
    let elementHeight := numberOrParse heightPercent in
    roundToNearestPixel rn.(PixelRatio_get)
      (div (mul height elementHeight) 100) in
  let vw := fun widthPercent =>
    let elementWidth := numberOrParse widthPercent in
    floor (mul (div width 100) elementWidth) in
  let vh := fun heightPercent =>
    let elementHeight := numberOrParse heightPercent in
    floor (mul (div height 100) elementHeight) in
  let base := if isLandscape then height else width in
  let rem := fun size =>
    let size := withDefault 0 size in
    let multiplier : number :=
      if lt (max height width) Constants.baseDevice.(ReactNative.height)
      then literal 0.9 else 1 in
    let elementSize := numberOrParse size in
    floor (mul (mul (div base Constants.baseDevice.(ReactNative.width))
                    elementSize) multiplier) in
  let rf := fun size =>
    let size := withDefault 0 size in
    let elementSize := numberOrParse size in
    let scaledFontSize :=
      min (mul Constants.baseFontSize Constants.maxFontScaleFactor)
          elementSize in
    scaledFontSize in
  let isIOS := String.eqb rn.(Platform_OS) "ios" in
  let isAndroid := String.eqb rn.(Platform_OS) "android" in
  {| isLandscape := isLandscape;
     isPortrait := isPortrait;
     wp := wp;
     hp := hp;
     vw := vw;
     vh := vh;
     rem := rem;
     rf := rf;
     isIOS := isIOS;
     isAndroid := isAndroid;
     breakpointGroup := breakpointGroup |}.

End Hook.

(* ===================================================================== *)
(** ** index.js                                                           *)
(* ===================================================================== *)

Module Index.

Inductive error : Type :=
| ReferenceError (name : string).

(** How the evaluation of a statement ends. *)
Inductive completion (A : Type) : Type :=
| Normal (a : A)
| Throw (e : error).

Arguments Normal {A} a.
Arguments Throw {A} e.

Definition bind {A B : Type} (c : completion A) (k : A -> completion B)
  : completion B :=
  match c with
  | Normal a => k a
  | Throw e => Throw e
  end.

Notation "x <- c ;; k" := (bind c (fun x => k))
  (at level 61, c at next level, right associativity).

(** The [let] and [const] bindings of the module's scope that hold data.
    All of them exist from the moment the module starts to run, but a
    binding holds nothing ([None]) until its own declaration has been
    evaluated. *)
Record scope : Type := {
  screenWidth : option number;                 (* let,   line 7 *)
  screenHeight : option number;                (* let,   line 10 *)
  base : option number;                        (* const, line 12 *)
  isIOS : option bool;                         (* const, line 18 *)
  isAndroid : option bool;                     (* const, line 24 *)
  isLandscape : option bool;                   (* const, line 30 *)
  isPortrait : option bool;                    (* const, line 36 *)
  breakpointGroup : option (option string)     (* const, line 158 *)
}.

Definition uninitialized : scope :=
  {| screenWidth := None; screenHeight := None; base := None;
     isIOS := None; isAndroid := None; isLandscape := None;
     isPortrait := None; breakpointGroup := None |}.

(** Reading a binding: a [ReferenceError] while it holds nothing. *)
Definition read {A : Type} (name : string) (binding : option A)
  : completion A :=
  match binding with
  | Some v => Normal v
  | None => Throw (ReferenceError name)
  end.

Definition init_screenWidth (v : number) (m : scope) : scope :=
  {| screenWidth := Some v; screenHeight := m.(screenHeight);
     base := m.(base); isIOS := m.(isIOS); isAndroid := m.(isAndroid);
     isLandscape := m.(isLandscape); isPortrait := m.(isPortrait);
     breakpointGroup := m.(breakpointGroup) |}.

Definition init_screenHeight (v : number) (m : scope) : scope :=
  {| screenWidth := m.(screenWidth); screenHeight := Some v;
     base := m.(base); isIOS := m.(isIOS); isAndroid := m.(isAndroid);
     isLandscape := m.(isLandscape); isPortrait := m.(isPortrait);
     breakpointGroup := m.(breakpointGroup) |}.

Definition init_base (v : number) (m : scope) : scope :=
  {| screenWidth := m.(screenWidth); screenHeight := m.(screenHeight);
     base := Some v; isIOS := m.(isIOS); isAndroid := m.(isAndroid);
     isLandscape := m.(isLandscape); isPortrait := m.(isPortrait);
     breakpointGroup := m.(breakpointGroup) |}.

Definition init_isIOS (v : bool) (m : scope) : scope :=
  {| screenWidth := m.(screenWidth); screenHeight := m.(screenHeight);
     base := m.(base); isIOS := Some v; isAndroid := m.(isAndroid);
     isLandscape := m.(isLandscape); isPortrait := m.(isPortrait);
     breakpointGroup := m.(breakpointGroup) |}.

Definition init_isAndroid (v : bool) (m : scope) : scope :=
  {| screenWidth := m.(screenWidth); screenHeight := m.(screenHeight);
     base := m.(base); isIOS := m.(isIOS); isAndroid := Some v;
     isLandscape := m.(isLandscape); isPortrait := m.(isPortrait);
     breakpointGroup := m.(breakpointGroup) |}.

Definition init_isLandscape (v : bool) (m : scope) : scope :=
  {| screenWidth := m.(screenWidth); screenHeight := m.(screenHeight);
     base := m.(base); isIOS := m.(isIOS); isAndroid := m.(isAndroid);
     isLandscape := Some v; isPortrait := m.(isPortrait);
     breakpointGroup := m.(breakpointGroup) |}.

Definition init_isPortrait (v : bool) (m : scope) : scope :=
  {| screenWidth := m.(screenWidth); screenHeight := m.(screenHeight);
     base := m.(base); isIOS := m.(isIOS); isAndroid := m.(isAndroid);
     isLandscape := m.(isLandscape); isPortrait := Some v;
     breakpointGroup := m.(breakpointGroup) |}.

Definition init_breakpointGroup (v : option string) (m : scope) : scope :=
  {| screenWidth := m.(screenWidth); screenHeight := m.(screenHeight);
     base := m.(base); isIOS := m.(isIOS); isAndroid := m.(isAndroid);
     isLandscape := m.(isLandscape); isPortrait := m.(isPortrait);
     breakpointGroup := Some v |}.

(** The functions of the module.  They are closures over the module's
    scope and read it when they are called. *)

Definition widthPercentageToDP (rn : host) (m : scope) (widthPercent : value)
  : completion number :=
  let elemWidth := numberOrParse widthPercent in
  screenWidth <- read "screenWidth" m.(screenWidth) ;;
  Normal (roundToNearestPixel rn.(PixelRatio_get)
            (div (mul screenWidth elemWidth) 100)).

Definition heightPercentageToDP (rn : host) (m : scope) (heightPercent : value)
  : completion number :=
  let elemHeight := numberOrParse heightPercent in
  screenHeight <- read "screenHeight" m.(screenHeight) ;;
  Normal (roundToNearestPixel rn.(PixelRatio_get)
            (div (mul screenHeight elemHeight) 100)).

Definition viewportWidthPercentage (m : scope) (widthPercent : value)
  : completion number :=
  let elemWidth := numberOrParse widthPercent in
  screenWidth <- read "screenWidth" m.(screenWidth) ;;
  Normal (floor (mul (div screenWidth 100) elemWidth)).

Definition viewportHeightPercentage (m : scope) (heightPercent : value)
  : completion number :=
  let elemHeight := numberOrParse heightPercent in
  screenHeight <- read "screenHeight" m.(screenHeight) ;;
  Normal (floor (mul (div screenHeight 100) elemHeight)).

Definition remUnit (m : scope) (size : value) : completion number :=
  let elemSize := numberOrParse size in
  screenHeight <- read "screenHeight" m.(screenHeight) ;;
  screenWidth <- read "screenWidth" m.(screenWidth) ;;
  let multiplier : number :=
    if lt (max screenHeight screenWidth)
          Constants.baseDevice.(ReactNative.height)
    then literal 0.9 else 1 in
  base <- read "base" m.(base) ;;
  Normal (floor (mul (mul (div base Constants.baseDevice.(ReactNative.width))
                          elemSize) multiplier)).

Definition responsiveFont (size : value) : completion number :=
  let elemSize := numberOrParse size in
  let scaledFontSize :=
    min (mul Constants.baseFontSize Constants.maxFontScaleFactor) elemSize in
  Normal scaledFontSize.

Definition getBreakpointGroup (m : scope) : completion (option string) :=
  screenWidth <- read "screenWidth" m.(screenWidth) ;;
  Normal (Hook.getBreakpointGroup Constants.breakpoints screenWidth).

(** The body of the module, statement by statement.  The imports have been
    resolved and evaluated before it starts; creating an arrow function
    reads no binding, so lines 44 to 152 leave the data bindings alone. *)
Definition body (rn : host) (m : scope) : completion scope :=
  (* line 7 *)
  let m := init_screenWidth rn.(window).(width) m in
  (* line 10 *)
  let m := init_screenHeight rn.(window).(height) m in
  (* line 12: const base = isLandscape ? screenHeight : screenWidth; *)
  landscape <- read "isLandscape" m.(isLandscape) ;;
  b <- (if landscape : bool
        then read "screenHeight" m.(screenHeight)
        else read "screenWidth" m.(screenWidth)) ;;
  let m := init_base b m in
  (* line 18 *)
  let m := init_isIOS (String.eqb rn.(Platform_OS) "ios") m in
  (* line 24 *)
  let m := init_isAndroid (String.eqb rn.(Platform_OS) "android") m in
  (* line 30: const isLandscape = screenWidth > screenHeight; *)
  w <- read "screenWidth" m.(screenWidth) ;;
  h <- read "screenHeight" m.(screenHeight) ;;
  let m := init_isLandscape (gt w h) m in
  (* line 36: const isPortrait = screenWidth < screenHeight; *)
  w <- read "screenWidth" m.(screenWidth) ;;
  h <- read "screenHeight" m.(screenHeight) ;;
  let m := init_isPortrait (lt w h) m in
  (* line 158: const breakpointGroup = getBreakpointGroup(); *)
  group <- getBreakpointGroup m ;;
  let m := init_breakpointGroup group m in
  Normal m.

Definition evaluate (rn : host) : completion scope :=
  body rn uninitialized.

(** Another module reaches an export of this one only once the body has
    run to its end: [use] is what the importer does with the exports. *)
Definition import {A : Type} (rn : host) (use : scope -> completion A)
  : completion A :=
  m <- evaluate rn ;; use m.

(** *** The orientation listener (lines 77 to 98)

    A function object is told from another by its identity, and every
    evaluation of an arrow-function expression makes a new one.  [that] is
    the screen component whose [setState] the listener calls. *)
Definition ref : Type := nat.
Definition component : Type := string.

Record runtime : Type := {
  bindings : scope;                       (* the module's own bindings *)
  listeners : list (ref * component);     (* Dimensions' 'change' listeners,
                                             oldest first; each is the arrow
                                             function of line 78, closed
                                             over its [that] *)
  nextRef : ref;                          (* identity of the next function
                                             object to be created *)
  setStateCalls : list (component * string)
                                          (* that.setState({orientation}),
                                             oldest first *)
}.

(** A module that has been loaded, before any listener is registered. *)
Definition loaded (m : scope) : runtime :=
  {| bindings := m; listeners := []; nextRef := 0%nat; setStateCalls := [] |}.

(** [Dimensions.addEventListener('change', handler)], the handler being a
    function object made at the call. *)
Definition listenOrientationChange (that : component) (rt : runtime)
  : runtime :=
  {| bindings := rt.(bindings);
     listeners := rt.(listeners) ++ [(rt.(nextRef), that)];
     nextRef := S rt.(nextRef);
     setStateCalls := rt.(setStateCalls) |}.

(** [Dimensions.removeEventListener('change', () => {})]: the listener to
    remove is the function object made at the call; the emitter drops the
    listeners that are that very object. *)
Definition removeOrientationListener (rt : runtime) : runtime :=
  let handler := rt.(nextRef) in
  {| bindings := rt.(bindings);
     listeners :=
       filter (fun l => negb (Nat.eqb (fst l) handler)) rt.(listeners);
     nextRef := S rt.(nextRef);
     setStateCalls := rt.(setStateCalls) |}.

(** ['portrait'] or ['landscape'], as line 85 decides it. *)
Definition orientation (screenWidth screenHeight : number) : string :=
  if lt screenWidth screenHeight then "portrait" else "landscape".

(** The body of the listener (lines 79 to 86), run for one listener on
    a change of the window to [newDimensions]. *)
Definition onChange (newDimensions : ScaledSize) (that : component)
  (rt : runtime) : runtime :=
  let m := init_screenWidth newDimensions.(width) rt.(bindings) in
  let m := init_screenHeight newDimensions.(height) m in
  {| bindings := m;
     listeners := rt.(listeners);
     nextRef := rt.(nextRef);
     setStateCalls :=
       rt.(setStateCalls)
       ++ [(that, orientation newDimensions.(width)
                              newDimensions.(height))] |}.

(** The window changes: Dimensions calls its listeners, oldest first. *)
Definition change (newDimensions : ScaledSize) (rt : runtime) : runtime :=
  fold_left (fun rt l => onChange newDimensions (snd l) rt)
            rt.(listeners) rt.

(** What a screen does over its life: it registers in componentDidMount
    and unregisters in componentWillUnmount. *)
Inductive call : Type :=
| Mount (that : component)
| Unmount.

Definition perform (rt : runtime) (c : call) : runtime :=
  match c with
  | Mount that => listenOrientationChange that rt
  | Unmount => removeOrientationListener rt
  end.

Definition mounted (calls : list call) : list component :=
  flat_map (fun c => match c with Mount that => [that] | Unmount => [] end)
           calls.

(** Every registered listener was made before the next function object. *)
Definition older (rt : runtime) : Prop :=
  Forall (fun l => (fst l < rt.(nextRef))%nat) rt.(listeners).

End Index.

Import Hook.

(* ===================================================================== *)
(** ** The formulas of the specification                                  *)
(* ===================================================================== *)

(** A host with a window of [w] by [h], at pixel density 1. *)
Definition phone (w h : Q) : host :=
  {| window := {| width := w; height := h |};
     PixelRatio_get := 1; Platform_OS := "ios" |}.

(** The computation of [rem] in the words of the specification:
    [base] is the height in landscape and the width otherwise, the
    multiplier is 0.9 when [max(width, height)] is below the reference
    height and 1 otherwise, and the result is
    [floor(base / baseDevice.width * size * multiplier)], here computed
    as the source computes it, in doubles and from left to right. *)
Definition spec_rem (w h size : number) : number :=
  let base := if gt w h then h else w in
  let multiplier : number :=
    if lt (max w h) Constants.baseDevice.(height) then literal 0.9 else 1 in
  floor (mul (mul (div base Constants.baseDevice.(width)) size) multiplier).

(** The same formula over the rationals, with nothing rounded before the
    floor. *)
Definition exact_rem (w h size : Q) : Z :=
  let base := if Qle_bool w h then w else h in
  let longer := if Qle_bool w h then h else w in
  let multiplier := if Qle_bool 812 longer then 1 else 0.9 in
  Qfloor (base / 375 * size * multiplier).

(** The computation in the words of the specification:
    [floor(axis_size / 100 * percent)], here computed as the source
    computes it, in doubles. *)
Definition spec_viewport (axis_size percent : number) : number :=
  floor (mul (div axis_size 100) percent).

(** The same formula over the rationals, with nothing rounded before the
    floor. *)
Definition exact_viewport (axis_size percent : Q) : Z :=
  Qfloor (axis_size / 100 * percent).

(** The computation in the words of the specification:
    [round_to_nearest_pixel(axis_size * percent / 100)]. *)
Definition spec_pixels (density axis_size percent : number) : number :=
  roundToNearestPixel density (div (mul axis_size percent) 100).

(** [width] lies in the closed interval from [low] to [high]. *)
Definition Within (width low high : number) : Prop :=
  LessEq low width /\ LessEq width high.

(** The same host with its window turned by a quarter. *)
Definition rotated (rn : host) : host :=
  {| window := {| width := rn.(window).(height);
                  height := rn.(window).(width) |};
     PixelRatio_get := rn.(PixelRatio_get);
     Platform_OS := rn.(Platform_OS) |}.

(** Two numbers of the same value: [Same], or both [NaN]. *)
Definition Alike (x y : number) : Prop :=
  match x, y with
  | NaN, NaN => True
  | _, _ => Same x y
  end.

(** [s] is made of decimal digits only. *)
Fixpoint digitsOnly (s : string) : bool :=
  match s with
  | EmptyString => true
  | String c r =>
      match digit c with
      | Some _ => digitsOnly r
      | None => false
      end
  end.

(* ===================================================================== *)
(** ** Facts about numbers                                                *)
(* ===================================================================== *)

Section Order.

Implicit Types x y z : number.

Lemma compare_Lt x y : JS.compare x y = Some Lt <-> Less x y.
Proof.
  destruct x, y; simpl; try (split; [discriminate | contradiction]);
    try (split; [constructor | reflexivity]).
  rewrite Qlt_alt. split; [now intros [= ->] | now intros ->].
Qed.

Lemma compare_Gt x y : JS.compare x y = Some Gt <-> Less y x.
Proof.
  destruct x, y; simpl; try (split; [discriminate | contradiction]);
    try (split; [constructor | reflexivity]).
  rewrite Qgt_alt. split; [now intros [= ->] | now intros ->].
Qed.

Lemma compare_Eq x y : JS.compare x y = Some Eq <-> Same x y.
Proof.
  destruct x, y; simpl; try (split; [discriminate | contradiction]);
    try (split; [constructor | reflexivity]).
  rewrite Qeq_alt. split; [now intros [= ->] | now intros ->].
Qed.

Lemma lt_Less x y : lt x y = true <-> Less x y.
Proof.
  rewrite <- compare_Lt. unfold lt.
  destruct (JS.compare x y) as [[]|]; split; congruence.
Qed.

Lemma gt_Less x y : gt x y = true <-> Less y x.
Proof.
  rewrite <- compare_Gt. unfold gt.
  destruct (JS.compare x y) as [[]|]; split; congruence.
Qed.

Lemma eqb_Same x y : eqb x y = true <-> Same x y.
Proof.
  rewrite <- compare_Eq. unfold eqb.
  destruct (JS.compare x y) as [[]|]; split; congruence.
Qed.

Lemma le_LessEq x y : le x y = true <-> LessEq x y.
Proof.
  unfold LessEq. rewrite <- compare_Lt, <- compare_Eq. unfold le.
  destruct (JS.compare x y) as [[]|]; intuition congruence.
Qed.

Lemma ge_LessEq x y : ge x y = true <-> LessEq y x.
Proof.
  unfold LessEq. rewrite <- compare_Gt.
  assert (Same y x <-> Same x y) as ->.
  { destruct x, y; simpl; try tauto. split; intros E; now rewrite E. }
  rewrite <- compare_Eq. unfold ge.
  destruct (JS.compare x y) as [[]|]; intuition congruence.
Qed.

Lemma Less_asym x y : Less x y -> ~ Less y x.
Proof. destruct x, y; simpl; try tauto. intros H1 H2. lra. Qed.

Lemma Same_not_Less x y : Same x y -> ~ Less x y /\ ~ Less y x.
Proof. destruct x, y; simpl; try tauto. intros E. split; lra. Qed.

Lemma LessEq_Fin (a b : Q) : LessEq (Fin a) (Fin b) <-> a <= b.
Proof. unfold LessEq; simpl. rewrite Qle_lteq. tauto. Qed.

End Order.

(* ===================================================================== *)
(** ** Facts about rounding                                               *)
(* ===================================================================== *)

Lemma pow2_pos (e : Z) : 0 < pow2 e.
Proof. apply Qpower_0_lt. reflexivity. Qed.

Lemma pow2_add (a b : Z) : pow2 (a + b) == pow2 a * pow2 b.
Proof. apply Qpower_plus. discriminate. Qed.

Lemma pow2_le (a b : Z) : (a <= b)%Z -> pow2 a <= pow2 b.
Proof. intros H. apply Qpower_le_compat_l; [assumption | discriminate]. Qed.

Lemma pow2_Z (n : Z) : (0 <= n)%Z -> pow2 n == inject_Z (2 ^ n).
Proof. intros H. unfold pow2. now rewrite Zpower_Qpower. Qed.

(* a positive integer between two consecutive powers of two *)
Lemma log2_bounds (n : Z) :
  (0 < n)%Z -> pow2 (Z.log2 n) <= inject_Z n /\ inject_Z n < pow2 (Z.log2 n + 1).
Proof.
  intros Hn. destruct (Z.log2_spec n Hn) as [H1 H2].
  assert (H0 := Z.log2_nonneg n).
  rewrite !pow2_Z by lia. rewrite <- Zle_Qle, <- Zlt_Qlt.
  replace (Z.log2 n + 1)%Z with (Z.succ (Z.log2 n)) by lia. now split.
Qed.

Lemma ilog2_spec (q : Q) :
  0 < q -> pow2 (ilog2 q) <= q /\ q < pow2 (ilog2 q + 1).
Proof.
  intros Hq. unfold ilog2.
  destruct q as [n d]. cbn [Qnum Qden].
  assert (Hn : (0 < n)%Z).
  { unfold Qlt in Hq. cbn in Hq. lia. }
  destruct (log2_bounds n Hn) as [N1 N2].
  destruct (log2_bounds (Zpos d) eq_refl) as [D1 D2].
  set (ln := Z.log2 n) in *. set (ld := Z.log2 (Z.pos d)) in *.
  assert (Eq : (n # d) == inject_Z n / inject_Z (Zpos d)) by apply Qmake_Qdiv.
  assert (Dpos : 0 < inject_Z (Zpos d)) by reflexivity.
  assert (Hlow : pow2 (ln - ld - 1) <= n # d).
  { rewrite Eq. apply Qle_shift_div_l; [assumption |].
    apply Qle_trans with (pow2 (ln - ld - 1) * pow2 (ld + 1)).
    - apply Qmult_le_l; [apply pow2_pos | now apply Qlt_le_weak].
    - rewrite <- pow2_add. replace (ln - ld - 1 + (ld + 1))%Z with ln by lia.
      assumption. }
  assert (Hhigh : n # d < pow2 (ln - ld + 1)).
  { rewrite Eq. apply Qlt_shift_div_r; [assumption |].
    apply Qlt_le_trans with (pow2 (ln + 1)); [assumption |].
    replace (ln + 1)%Z with ((ln - ld + 1) + ld)%Z by lia.
    rewrite pow2_add. apply Qmult_le_l; [apply pow2_pos | assumption]. }
  destruct (Qle_bool (pow2 (ln - ld)) (n # d)) eqn:E.
  - apply Qle_bool_iff in E. now split.
  - split; [assumption |].
    replace (ln - ld - 1 + 1)%Z with (ln - ld)%Z by lia.
    apply Qnot_le_lt. intros H. apply Qle_bool_iff in H. congruence.
Qed.

Lemma ilog2_unique (q : Q) (k : Z) :
  pow2 k <= q -> q < pow2 (k + 1) -> ilog2 q = k.
Proof.
  intros H1 H2.
  assert (Hq : 0 < q) by (apply Qlt_le_trans with (pow2 k); [apply pow2_pos | assumption]).
  destruct (ilog2_spec q Hq) as [S1 S2].
  assert (A : (ilog2 q < k + 1)%Z).
  { apply (Qpower_lt_compat_l_inv 2); [| reflexivity].
    apply Qle_lt_trans with q; assumption. }
  assert (B : (k < ilog2 q + 1)%Z).
  { apply (Qpower_lt_compat_l_inv 2); [| reflexivity].
    apply Qle_lt_trans with q; assumption. }
  lia.
Qed.

Lemma ilog2_mono (x y : Q) : 0 < x -> x <= y -> (ilog2 x <= ilog2 y)%Z.
Proof.
  intros Hx Hxy.
  assert (Hy : 0 < y) by (apply Qlt_le_trans with x; assumption).
  destruct (ilog2_spec x Hx) as [X1 _]. destruct (ilog2_spec y Hy) as [_ Y2].
  assert (A : (ilog2 x < ilog2 y + 1)%Z).
  { apply (Qpower_lt_compat_l_inv 2); [| reflexivity].
    apply Qle_lt_trans with x; [assumption |].
    apply Qle_lt_trans with y; assumption. }
  lia.
Qed.

Lemma ilog2_compat (x y : Q) : 0 < x -> x == y -> ilog2 x = ilog2 y.
Proof.
  intros Hx E. destruct (ilog2_spec x Hx) as [X1 X2].
  symmetry. apply ilog2_unique; now rewrite <- E.
Qed.

Lemma nearestEven_compat (x y : Q) : x == y -> nearestEven x = nearestEven y.
Proof.
  intros E. unfold nearestEven. rewrite (Qfloor_comp _ _ E).
  assert (E' : x - inject_Z (Qfloor y) == y - inject_Z (Qfloor y))
    by now rewrite E.
  now rewrite E'.
Qed.

Lemma nearestEven_Z (z : Z) : nearestEven (inject_Z z) = z.
Proof.
  unfold nearestEven. rewrite Qfloor_Z.
  assert (E : inject_Z z - inject_Z z == 0) by ring.
  now rewrite E.
Qed.

Lemma nearestEven_bounds (x : Q) :
  (Qfloor x <= nearestEven x <= Qfloor x + 1)%Z.
Proof.
  unfold nearestEven.
  destruct (Qcompare _ _); try destruct (Z.even _); lia.
Qed.

Lemma nearestEven_mono (x y : Q) :
  x <= y -> (nearestEven x <= nearestEven y)%Z.
Proof.
  intros Hxy. assert (Hf := Qfloor_resp_le x y Hxy).
  destruct (Z.eq_dec (Qfloor x) (Qfloor y)) as [E | N].
  - unfold nearestEven. rewrite E. set (f := Qfloor y).
    destruct (Qcompare (x - inject_Z f) (1 # 2)) eqn:Cx;
      destruct (Qcompare (y - inject_Z f) (1 # 2)) eqn:Cy;
      try (destruct (Z.even f)); try lia;
      exfalso;
      first [apply Qeq_alt in Cx | apply Qlt_alt in Cx | apply Qgt_alt in Cx];
      first [apply Qeq_alt in Cy | apply Qlt_alt in Cy | apply Qgt_alt in Cy];
      lra.
  - assert (B1 := nearestEven_bounds x). assert (B2 := nearestEven_bounds y).
    lia.
Qed.

Lemma exponent64_mono (x y : Q) :
  0 < x -> x <= y -> (exponent64 x <= exponent64 y)%Z.
Proof.
  intros Hx Hxy. unfold exponent64.
  assert (H := ilog2_mono x y Hx Hxy). lia.
Qed.

Lemma scaled_upper (x : Q) :
  0 < x -> x / pow2 (exponent64 x) < pow2 53.
Proof.
  intros Hx. destruct (ilog2_spec x Hx) as [_ H2].
  apply Qlt_shift_div_r; [apply pow2_pos |].
  rewrite <- pow2_add.
  apply Qlt_le_trans with (pow2 (ilog2 x + 1)); [assumption |].
  apply pow2_le. unfold exponent64. lia.
Qed.

Lemma scaled_lower (x : Q) :
  0 < x -> (-1074 < exponent64 x)%Z -> pow2 52 <= x / pow2 (exponent64 x).
Proof.
  intros Hx He. destruct (ilog2_spec x Hx) as [H1 _].
  apply Qle_shift_div_l; [apply pow2_pos |].
  rewrite <- pow2_add.
  apply Qle_trans with (pow2 (ilog2 x)); [| assumption].
  apply pow2_le. unfold exponent64 in *. lia.
Qed.

Lemma nearest64_upper (x : Q) :
  0 < x -> nearest64 x <= pow2 (53 + exponent64 x).
Proof.
  intros Hx. unfold nearest64. rewrite pow2_add.
  apply Qmult_le_compat_r; [| apply Qlt_le_weak, pow2_pos].
  rewrite (pow2_Z 53) by lia. rewrite <- Zle_Qle.
  rewrite <- (nearestEven_Z (2 ^ 53)). apply nearestEven_mono.
  rewrite <- pow2_Z by lia. apply Qlt_le_weak. now apply scaled_upper.
Qed.

Lemma nearest64_lower (x : Q) :
  0 < x -> (-1074 < exponent64 x)%Z -> pow2 (52 + exponent64 x) <= nearest64 x.
Proof.
  intros Hx He. unfold nearest64. rewrite pow2_add.
  apply Qmult_le_compat_r; [| apply Qlt_le_weak, pow2_pos].
  rewrite (pow2_Z 52) by lia. rewrite <- Zle_Qle.
  rewrite <- (nearestEven_Z (2 ^ 52)). apply nearestEven_mono.
  rewrite <- pow2_Z by lia. now apply scaled_lower.
Qed.

Lemma nearest64_nonneg (x : Q) : 0 < x -> 0 <= nearest64 x.
Proof.
  intros Hx. unfold nearest64.
  apply Qmult_le_0_compat; [| apply Qlt_le_weak, pow2_pos].
  change 0 with (inject_Z 0). rewrite <- Zle_Qle.
  rewrite <- (nearestEven_Z 0). apply nearestEven_mono.
  apply Qle_shift_div_l; [apply pow2_pos |]. change (inject_Z 0) with 0. lra.
Qed.

Lemma nearest64_mono (x y : Q) :
  0 < x -> x <= y -> nearest64 x <= nearest64 y.
Proof.
  intros Hx Hxy.
  assert (Hy : 0 < y) by (apply Qlt_le_trans with x; assumption).
  assert (He := exponent64_mono x y Hx Hxy).
  destruct (Z.eq_dec (exponent64 x) (exponent64 y)) as [E | N].
  - unfold nearest64. rewrite E.
    apply Qmult_le_compat_r; [| apply Qlt_le_weak, pow2_pos].
    rewrite <- Zle_Qle. apply nearestEven_mono.
    apply Qmult_le_compat_r; [assumption |].
    apply Qlt_le_weak, Qinv_lt_0_compat, pow2_pos.
  - apply Qle_trans with (pow2 (53 + exponent64 x));
      [now apply nearest64_upper |].
    apply Qle_trans with (pow2 (52 + exponent64 y)).
    + apply pow2_le. lia.
    + apply nearest64_lower; [assumption |]. unfold exponent64 in *. lia.
Qed.

Lemma nearest64_compat (x y : Q) :
  0 < x -> x == y -> nearest64 x == nearest64 y.
Proof.
  intros Hx E. unfold nearest64, exponent64.
  rewrite (ilog2_compat x y Hx E).
  set (e := Z.max (-1074) (ilog2 y - 52)).
  assert (E' : x / pow2 e == y / pow2 e) by now rewrite E.
  now rewrite (nearestEven_compat _ _ E').
Qed.

Lemma round64_compat (x y : Q) : x == y -> round64 x = round64 y.
Proof.
  intros E. unfold round64. rewrite <- E.
  destruct (Qcompare x 0) eqn:C; [reflexivity | |].
  - apply Qlt_alt in C.
    assert (N : nearest64 (- x) == nearest64 (- y)).
    { apply nearest64_compat; [lra | now rewrite E]. }
    rewrite <- N.
    assert (R : - nearest64 (- x) == - nearest64 (- y)) by now rewrite N.
    now rewrite (Qred_complete _ _ R).
  - apply Qgt_alt in C.
    assert (N : nearest64 x == nearest64 y) by now apply nearest64_compat.
    rewrite <- N. now rewrite (Qred_complete _ _ N).
Qed.

Lemma round64_0 (q : Q) : q == 0 -> round64 q = Fin 0.
Proof. intros E. unfold round64. now rewrite E. Qed.

(** Rounding gives a finite number of the sign of its argument, or the
    infinity of that sign; never [NaN]. *)
Lemma round64_cases (q : Q) :
  (0 <= q -> round64 q = PosInf \/ exists r, round64 q = Fin r /\ 0 <= r) /\
  (q <= 0 -> round64 q = NegInf \/ exists r, round64 q = Fin r /\ r <= 0).
Proof.
  unfold round64. destruct (Qcompare q 0) eqn:C.
  - split; intros _; right; exists 0; split; [reflexivity | apply Qle_refl
                                             | reflexivity | apply Qle_refl].
  - apply Qlt_alt in C. split; [intros H; lra |]. intros _.
    destruct (Qle_bool _ _); [now left | right].
    eexists. split; [reflexivity |]. rewrite Qred_correct.
    assert (N := nearest64_nonneg (- q)). lra.
  - apply Qgt_alt in C. split; [| intros H; lra]. intros _.
    destruct (Qle_bool _ _); [now left | right].
    eexists. split; [reflexivity |]. rewrite Qred_correct.
    now apply nearest64_nonneg.
Qed.

Lemma round64_mono (x y : Q) : x <= y -> LessEq (round64 x) (round64 y).
Proof.
  intros Hxy. unfold round64.
  destruct (Qcompare x 0) eqn:Cx; destruct (Qcompare y 0) eqn:Cy;
    first [apply Qeq_alt in Cx | apply Qlt_alt in Cx | apply Qgt_alt in Cx];
    first [apply Qeq_alt in Cy | apply Qlt_alt in Cy | apply Qgt_alt in Cy];
    try (exfalso; lra).
  - right. reflexivity.
  - assert (N := nearest64_nonneg y Cy).
    destruct (Qle_bool _ _); [left; exact I |].
    apply LessEq_Fin. rewrite Qred_correct. assumption.
  - assert (N := nearest64_nonneg (- x)).
    destruct (Qle_bool _ _); [left; exact I |].
    apply LessEq_Fin. rewrite Qred_correct. lra.
  - assert (M : nearest64 (- y) <= nearest64 (- x))
      by (apply nearest64_mono; lra).
    destruct (Qle_bool (pow2 1024) (nearest64 (- x))) eqn:Bx;
      destruct (Qle_bool (pow2 1024) (nearest64 (- y))) eqn:By.
    + right. exact I.
    + left. exact I.
    + apply Qle_bool_iff in By. exfalso.
      assert (B : ~ pow2 1024 <= nearest64 (- x))
        by (intros B; apply Qle_bool_iff in B; congruence).
      apply B. lra.
    + apply LessEq_Fin. rewrite !Qred_correct. lra.
  - assert (Nx := nearest64_nonneg (- x)). assert (Ny := nearest64_nonneg y Cy).
    destruct (Qle_bool (pow2 1024) (nearest64 (- x)));
      destruct (Qle_bool (pow2 1024) (nearest64 y));
      try (left; exact I).
    apply LessEq_Fin. rewrite !Qred_correct. lra.
  - assert (M : nearest64 x <= nearest64 y) by now apply nearest64_mono.
    destruct (Qle_bool (pow2 1024) (nearest64 x)) eqn:Bx;
      destruct (Qle_bool (pow2 1024) (nearest64 y)) eqn:By.
    + right. exact I.
    + apply Qle_bool_iff in Bx. exfalso.
      assert (B : ~ pow2 1024 <= nearest64 y)
        by (intros B; apply Qle_bool_iff in B; congruence).
      apply B. lra.
    + left. exact I.
    + apply LessEq_Fin. rewrite !Qred_correct. assumption.
Qed.

(** What [isDouble] says. *)
Lemma isDouble_round64 (q q' : Q) :
  isDouble q = true -> q' == q -> exists r, round64 q' = Fin r /\ r == q.
Proof.
  unfold isDouble. intros H E. rewrite (round64_compat q' q E).
  destruct (round64 q) as [| | | r]; try discriminate.
  exists r. split; [reflexivity | now apply Qeq_bool_iff].
Qed.

(* ===================================================================== *)
(** ** Facts about the operations                                         *)
(* ===================================================================== *)

Lemma LessEq_trans (x y z : number) : LessEq x y -> LessEq y z -> LessEq x z.
Proof.
  unfold LessEq.
  destruct x, y, z; cbn; try tauto; intros [H1 | H1] [H2 | H2];
    try contradiction; first [left; lra | right; lra].
Qed.

Lemma nonneg_cases (x : number) :
  LessEq 0 x -> x = PosInf \/ exists q, x = Fin q /\ 0 <= q.
Proof.
  destruct x as [| | | q]; intros [H | H]; try contradiction.
  - now left.
  - right. exists q. split; [reflexivity | now apply Qlt_le_weak].
  - right. exists q. split; [reflexivity |]. cbn in H. lra.
Qed.

Lemma round64_nonneg (q : Q) : 0 <= q -> LessEq 0 (round64 q).
Proof.
  intros H. rewrite <- (round64_0 0) by reflexivity. now apply round64_mono.
Qed.

Lemma LessEq_PosInf (q : Q) : LessEq (round64 q) PosInf.
Proof.
  destruct (Qlt_le_dec q 0) as [H | H].
  - destruct (proj2 (round64_cases q)) as [-> | (r & -> & _)];
      [lra | left; exact I | left; exact I].
  - destruct (proj1 (round64_cases q) H) as [-> | (r & -> & _)];
      [right; exact I | left; exact I].
Qed.

(** Multiplying a non-negative number by a finite one. *)
Lemma mul_Fin_mono (a p q : Q) :
  0 <= a -> p <= q -> LessEq (mul (Fin a) (Fin p)) (mul (Fin a) (Fin q)).
Proof.
  intros Ha Hpq. cbn [mul]. apply round64_mono.
  rewrite !(Qmult_comm a). now apply Qmult_le_compat_r.
Qed.



(** Scaling by a positive constant keeps the order of non-negative
    numbers, the infinite one included. *)
Lemma scale_mono (c : Q) (x y : number) :
  0 < c -> LessEq 0 x -> LessEq x y ->
  LessEq 0 (mul x (Fin c)) /\ LessEq (mul x (Fin c)) (mul y (Fin c)).
Proof.
  intros Hc Hx Hxy.
  assert (Hy : LessEq 0 y) by now apply LessEq_trans with x.
  assert (Inf : mul PosInf (Fin c) = PosInf).
  { cbn [mul]. unfold infTimes. now rewrite (proj1 (Qgt_alt c 0) Hc). }
  destruct (nonneg_cases x Hx) as [-> | (a & -> & Ha)];
    destruct (nonneg_cases y Hy) as [-> | (b & -> & Hb)].
  - rewrite Inf. split; [left | right]; exact I.
  - destruct Hxy as [[] | []].
  - rewrite Inf. cbn [mul]. split; [| apply LessEq_PosInf].
    apply round64_nonneg. apply Qmult_le_0_compat; lra.
  - apply LessEq_Fin in Hxy. cbn [mul]. split.
    + apply round64_nonneg. apply Qmult_le_0_compat; lra.
    + apply round64_mono. apply Qmult_le_compat_r; lra.
Qed.

Lemma quotient_mono (c : Q) (x y : number) :
  0 < c -> LessEq 0 x -> LessEq x y ->
  LessEq 0 (div x (Fin c)) /\ LessEq (div x (Fin c)) (div y (Fin c)).
Proof.
  intros Hc Hx Hxy.
  assert (Hy : LessEq 0 y) by now apply LessEq_trans with x.
  assert (Gt : (c ?= 0) = Gt) by now apply Qgt_alt.
  assert (Hinv : 0 < / c) by now apply Qinv_lt_0_compat.
  destruct (nonneg_cases x Hx) as [-> | (a & -> & Ha)];
    destruct (nonneg_cases y Hy) as [-> | (b & -> & Hb)];
    cbn [div]; rewrite ?Gt.
  - split; [left | right]; exact I.
  - destruct Hxy as [[] | []].
  - split; [| apply LessEq_PosInf].
    apply round64_nonneg. unfold Qdiv. apply Qmult_le_0_compat; lra.
  - apply LessEq_Fin in Hxy. split.
    + apply round64_nonneg. unfold Qdiv. apply Qmult_le_0_compat; lra.
    + apply round64_mono. unfold Qdiv. apply Qmult_le_compat_r; lra.
Qed.

Lemma floor_mono (x y : number) :
  LessEq x y -> LessEq (floor x) (floor y).
Proof.
  destruct x, y; cbn [floor]; try exact (fun H => H).
  rewrite !LessEq_Fin, <- Zle_Qle. apply Qfloor_resp_le.
Qed.

Lemma floor_nonneg (x : number) : LessEq 0 x -> LessEq 0 (floor x).
Proof. intros H. change (Fin 0) with (floor (Fin 0)). now apply floor_mono. Qed.

Lemma round_mono (x y : number) :
  LessEq x y -> LessEq (JS.round x) (JS.round y).
Proof.
  destruct x, y; cbn [JS.round]; try exact (fun H => H).
  rewrite !LessEq_Fin, <- Zle_Qle. intros H. apply Qfloor_resp_le. lra.
Qed.

Lemma round_nonneg (x : number) : LessEq 0 x -> LessEq 0 (JS.round x).
Proof.
  intros H. change (Fin 0) with (JS.round (Fin 0)). now apply round_mono.
Qed.

(** A quotient that does not exceed a double is finite. *)
Lemma below_double_finite (x a : Q) :
  0 <= x -> x <= a -> isDouble a = true ->
  exists r, round64 x = Fin r /\ 0 <= r /\ r <= a.
Proof.
  intros Hx Hxa Ha.
  destruct (isDouble_round64 a a Ha (Qeq_refl a)) as (r & Er & Era).
  assert (M := round64_mono x a Hxa). rewrite Er in M.
  destruct (proj1 (round64_cases x) Hx) as [E | (s & E & Hs)];
    rewrite E in M.
  - destruct M as [[] | []].
  - exists s. split; [assumption |]. split; [assumption |].
    apply LessEq_Fin in M. lra.
Qed.
(* ===================================================================== *)
(** ** Orientation                                                        *)
(* ===================================================================== *)



(* ===================================================================== *)
(** ** Loading index.js                                                   *)
(* ===================================================================== *)

(** C2.  Evaluating index.js throws a ReferenceError whatever the host
    is: line 12 reads [isLandscape], which holds nothing until line 30.
    So nothing that goes through the module's exports ever runs. *)
Theorem index_evaluation_throws (rn : host) :
  Index.evaluate rn = Index.Throw (Index.ReferenceError "isLandscape") /\
  forall (A : Type) (use : Index.scope -> Index.completion A),
    Index.import rn use = Index.Throw (Index.ReferenceError "isLandscape").
Proof.
  split.
  - reflexivity.
  - intros A use. reflexivity.
Qed.

(** The throw comes from the order of the declarations alone: started
    from a scope in which [isLandscape] already holds a value, the same
    body runs to its end, and lines 30 and 36 compute the two flags as the
    hook does. *)
Lemma index_body_completes (rn : host) (landscape : bool) :
  exists m,
    Index.body rn (Index.init_isLandscape landscape Index.uninitialized)
    = Index.Normal m /\
    Index.base m = Some (if landscape then rn.(window).(height)
                         else rn.(window).(width)) /\
    Index.isLandscape m = Some (useResponsive rn).(isLandscape) /\
    Index.isPortrait m = Some (useResponsive rn).(isPortrait) /\
    Index.breakpointGroup m = Some (useResponsive rn).(breakpointGroup).
Proof. destruct landscape; eexists; repeat split. Qed.

(* ===================================================================== *)
(** ** Font sizes: rem and rf                                             *)
(* ===================================================================== *)

Lemma compare_swap (x y : number) :
  JS.compare y x = option_map CompOpp (JS.compare x y).
Proof.
  destruct x, y; simpl; try reflexivity.
  now rewrite <- Qcompare_antisym.
Qed.

Lemma compare_Eq_l (x y z : number) :
  JS.compare x y = Some Eq -> JS.compare x z = JS.compare y z.
Proof.
  intros E. apply compare_Eq in E.
  destruct x, y; simpl in E; try contradiction; try reflexivity.
  destruct z; simpl; try reflexivity. now rewrite E.
Qed.

(** [Math.max(a, b) < c] does not depend on the order of [a] and [b]. *)
Lemma max_comm_lt (x y c : number) : lt (max x y) c = lt (max y x) c.
Proof.
  unfold lt, max. rewrite (compare_swap x y).
  destruct (JS.compare x y) as [[]|] eqn:E; simpl; try reflexivity.
  now rewrite (compare_Eq_l _ _ c E).
Qed.

Lemma isDouble_mul (q x y : Q) :
  isDouble q = true -> x * y == q ->
  exists r, mul (Fin x) (Fin y) = Fin r /\ r == q.
Proof. intros Hq E. cbn [mul]. now apply isDouble_round64. Qed.

Lemma isDouble_div (q x y : Q) :
  isDouble q = true -> ~ y == 0 -> x / y == q ->
  exists r, div (Fin x) (Fin y) = Fin r /\ r == q.
Proof.
  intros Hq Hy E. cbn [div].
  destruct (y ?= 0) eqn:C; try now apply isDouble_round64.
  apply Qeq_alt in C. contradiction.
Qed.

(** Refutation of C3 as stated: on a window of 250 by 500 the value
    [250 / 375 * 25 * 0.9] is 15, but the source rounds the quotient and
    the two products to doubles, reaches 14.999999999999998, and [rem(25)]
    is 14. *)
Lemma rem_rounds_before_the_floor :
  (useResponsive (phone 250 500)).(rem) (Number 25) = Fin 14 /\
  exact_rem 250 500 25 = 15%Z /\
  (useResponsive (phone 250 500)).(rem) (Number 25)
  <> Fin (inject_Z (exact_rem 250 500 25)).
Proof.
  split; [vm_compute; reflexivity |]. split; [vm_compute; reflexivity |].
  vm_compute. discriminate.
Qed.

(** C3, amended.  [rem(size)] is the floor of
    [base / baseDevice.width * size * multiplier] as the doubles compute
    it, from left to right and every operation rounded, where [base] is
    the height when width > height and the width otherwise and the
    multiplier is the double nearest 0.9 when [max(width, height)] is
    below [baseDevice.height] and 1 otherwise.  It is the floor of the
    exact value whenever the longer side is at least 812 and neither the
    quotient nor the product is rounded; so [rem(16)] is 16 at 375 by
    812. *)
Theorem rem_formula (rn : host) (size : number) :
  (useResponsive rn).(rem) (Number size)
  = spec_rem rn.(window).(width) rn.(window).(height) size /\
  (forall w h s : Q,
      let base := if Qle_bool w h then w else h in
      let longer := if Qle_bool w h then h else w in
      rn.(window) = {| width := w; height := h |} -> size = Fin s ->
      812 <= longer ->
      isDouble (base / 375) = true -> isDouble (base / 375 * s) = true ->
      (useResponsive rn).(rem) (Number size)
      = Fin (inject_Z (exact_rem w h s))) /\
  (useResponsive (phone 375 812)).(rem) (Number 16) = Fin 16.
Proof.
  split; [| split; [| vm_compute; reflexivity]].
  - unfold spec_rem. cbn [useResponsive rem withDefault numberOrParse].
    now rewrite max_comm_lt.
  - intros w h s base longer Hwin -> Hlong Hc Hx.
    cbn [useResponsive rem withDefault numberOrParse].
    rewrite Hwin. cbn [width height].
    change Constants.baseDevice.(height) with (Fin 812).
    change Constants.baseDevice.(width) with (Fin 375).
    unfold exact_rem. fold base. fold longer.
    apply (proj2 (Qle_bool_iff 812 longer)) in Hlong as Hlong'.
    rewrite Hlong'.
    assert (Ebase : (if gt (Fin w) (Fin h) then Fin h else Fin w) = Fin base).
    { unfold gt. cbn [JS.compare]. subst base.
      destruct (Qle_bool w h) eqn:B.
      - apply Qle_bool_iff in B.
        destruct (w ?= h) eqn:C; try reflexivity.
        apply Qgt_alt in C. lra.
      - destruct (w ?= h) eqn:C; try reflexivity; exfalso;
          [apply Qeq_alt in C | apply Qlt_alt in C];
          assert (B' : w <= h) by lra; apply Qle_bool_iff in B'; congruence. }
    assert (Emul : (if lt (max (Fin h) (Fin w)) (Fin 812)
                    then literal 0.9 else Fin 1) = Fin 1).
    { unfold lt, max. cbn [JS.compare]. subst longer.
      destruct (Qle_bool w h) eqn:B.
      - apply Qle_bool_iff in B.
        destruct (h ?= w) eqn:C; cbn [JS.compare];
          first [apply Qeq_alt in C | apply Qlt_alt in C | apply Qgt_alt in C];
          try (exfalso; lra);
          (destruct (_ ?= 812) eqn:D; try reflexivity;
           apply Qlt_alt in D; lra).
      - assert (B' : h < w).
        { apply Qnot_le_lt. intros B'. apply Qle_bool_iff in B'. congruence. }
        destruct (h ?= w) eqn:C; cbn [JS.compare];
          first [apply Qeq_alt in C | apply Qlt_alt in C | apply Qgt_alt in C];
          try (exfalso; lra);
          (destruct (_ ?= 812) eqn:D; try reflexivity;
           apply Qlt_alt in D; lra). }
    rewrite Ebase, Emul.
    destruct (isDouble_div _ base 375 Hc) as (c & -> & Ec);
      [discriminate | reflexivity |].
    destruct (isDouble_mul _ c s Hx) as (x & -> & Ex); [now rewrite Ec |].
    destruct (isDouble_mul _ x 1 Hx) as (y & -> & Ey); [rewrite Ex; ring |].
    cbn [floor]. do 2 f_equal. apply Qfloor_comp. rewrite Ey. ring.
Qed.

Lemma rem_formula_witness :
  (useResponsive (phone 750 1334)).(rem) (Number 10)
  = Fin (inject_Z (exact_rem 750 1334 10)).
Proof.
  apply (proj1 (proj2 (rem_formula (phone 750 1334) 10)) 750 1334 10);
    solve [reflexivity | discriminate | vm_compute; reflexivity].
Defined.

(** C5.  [remUnit] and [responsiveFont] of index.js declare no default
    for their argument: called without one they parse the string
    "undefined" and return [NaN], whatever the bindings of the module
    hold; the hook's [rf] returns 0 on every host, and its [rem] returns
    0 on the reference device. *)
Theorem index_font_functions_have_no_default (rn : host) (w h b : number) :
  Index.responsiveFont Undefined = Index.Normal NaN /\
  Index.remUnit
    (Index.init_base b
       (Index.init_screenHeight h
          (Index.init_screenWidth w Index.uninitialized)))
    Undefined
  = Index.Normal NaN /\
  (useResponsive rn).(rf) Undefined = Fin 0 /\
  (useResponsive (phone 375 812)).(rem) Undefined = Fin 0.
Proof.
  split; [vm_compute; reflexivity |].
  split; [| split; vm_compute; reflexivity].
  unfold Index.remUnit.
  cbn [Index.init_base Index.init_screenHeight Index.init_screenWidth
       Index.screenWidth Index.screenHeight Index.base Index.read Index.bind].
  f_equal. assert (E : numberOrParse Undefined = NaN) by (vm_compute; reflexivity).
  rewrite E.
  destruct (div b Constants.baseDevice.(width));
    destruct (lt (max h w) Constants.baseDevice.(height)); reflexivity.
Qed.



(* ===================================================================== *)
(** ** Viewport units: vw and vh                                          *)
(* ===================================================================== *)

(** Refutation of C9 as stated: at height 812, [812 / 100 * 50] is 406,
    but the quotient 8.12 is rounded to a double and the product comes
    out as 405.99999999999994, so [vh(50)] is 405. *)
Lemma vh_rounds_before_the_floor :
  (useResponsive (phone 375 812)).(vh) (Number 50) = Fin 405 /\
  exact_viewport 812 50 = 406%Z /\
  (useResponsive (phone 375 812)).(vh) (Number 50)
  <> Fin (inject_Z (exact_viewport 812 50)).
Proof.
  split; [vm_compute; reflexivity |]. split; [vm_compute; reflexivity |].
  vm_compute. discriminate.
Qed.

(** C9, amended.  For every percentage, a number or a string, [vw] is
    the floor of [width / 100 * p] and [vh] the floor of
    [height / 100 * p] as the doubles compute them, the quotient and the
    product each rounded; the pixel density does not enter.  They are
    the floor of the exact value whenever neither the quotient nor the
    product is rounded; so [vw(50)] is 187 at width 375. *)
Theorem vw_vh_floor (rn : host) (percent : value) (density : number) :
  let r := useResponsive rn in
  let r' := useResponsive {| window := rn.(window);
                             PixelRatio_get := density;
                             Platform_OS := rn.(Platform_OS) |} in
  r.(vw) percent = spec_viewport rn.(window).(width) (numberOrParse percent) /\
  r.(vh) percent = spec_viewport rn.(window).(height) (numberOrParse percent) /\
  r'.(vw) percent = r.(vw) percent /\
  r'.(vh) percent = r.(vh) percent /\
  (forall a p : Q,
      rn.(window).(width) = Fin a -> numberOrParse percent = Fin p ->
      isDouble (a / 100) = true -> isDouble (a / 100 * p) = true ->
      r.(vw) percent = Fin (inject_Z (exact_viewport a p))) /\
  (forall b p : Q,
      rn.(window).(height) = Fin b -> numberOrParse percent = Fin p ->
      isDouble (b / 100) = true -> isDouble (b / 100 * p) = true ->
      r.(vh) percent = Fin (inject_Z (exact_viewport b p))) /\
  (useResponsive (phone 375 812)).(vw) (Number 50) = Fin 187 /\
  (useResponsive (phone 375 812)).(vw) (Str "50%") = Fin 187.
Proof.
  cbn zeta.
  assert (Exact : forall a p : Q,
    isDouble (a / 100) = true -> isDouble (a / 100 * p) = true ->
    floor (mul (div (Fin a) 100) (Fin p))
    = Fin (inject_Z (exact_viewport a p))).
  { intros a p Hc Hx.
    destruct (isDouble_div _ a 100 Hc) as (c & -> & Ec);
      [discriminate | reflexivity |].
    destruct (isDouble_mul _ c p Hx) as (x & -> & Ex); [now rewrite Ec |].
    cbn [floor]. unfold exact_viewport. do 2 f_equal.
    now apply Qfloor_comp. }
  repeat (split; [reflexivity |]).
  split; [| split; [| split; vm_compute; reflexivity]].
  - intros a p Hw Hp. cbn [useResponsive vw]. rewrite Hw, Hp. apply Exact.
  - intros b p Hh Hp. cbn [useResponsive vh]. rewrite Hh, Hp. apply Exact.
Qed.

Lemma vw_vh_floor_witness :
  (useResponsive (phone 375 812)).(vw) (Number 50)
  = Fin (inject_Z (exact_viewport 375 50)).
Proof.
  apply (proj1 (proj2 (proj2 (proj2 (proj2
           (vw_vh_floor (phone 375 812) (Number 50) 1))))) 375 50);
    solve [reflexivity | vm_compute; reflexivity].
Defined.

(** index.js computes the same two values from its own size bindings. *)
Lemma index_viewport (m : Index.scope) (w h : number) (percent : value) :
  Index.screenWidth m = Some w -> Index.screenHeight m = Some h ->
  Index.viewportWidthPercentage m percent
    = Index.Normal (spec_viewport w (numberOrParse percent)) /\
  Index.viewportHeightPercentage m percent
    = Index.Normal (spec_viewport h (numberOrParse percent)).
Proof.
  intros Hw Hh.
  unfold Index.viewportWidthPercentage, Index.viewportHeightPercentage.
  rewrite Hw, Hh. split; reflexivity.
Qed.

(* ===================================================================== *)
(** ** Breakpoint classification                                          *)
(* ===================================================================== *)

Lemma loop_test (width low high : number) :
  ge width low && le width high = true <-> Within width low high.
Proof.
  unfold Within. rewrite andb_true_iff, ge_LessEq, le_LessEq. tauto.
Qed.

Lemma insertIndexed_In {V : Type} (i : Z) (p : string * V) sorted x :
  In x (insertIndexed i p sorted) <-> x = (i, p) \/ In x sorted.
Proof.
  induction sorted as [| [j q] rest IH]; cbn [insertIndexed].
  - cbn. intuition congruence.
  - destruct (i <? j)%Z; cbn [In]; [intuition congruence |].
    rewrite IH. intuition congruence.
Qed.

Lemma indexed_In {V : Type} (o : list (string * V)) (p : string * V) :
  In p (map snd (indexed o)) <-> In p o /\ arrayIndex (fst p) <> None.
Proof.
  induction o as [| q rest IH]; cbn [indexed].
  - cbn. tauto.
  - destruct (arrayIndex (fst q)) as [i |] eqn:E.
    + rewrite in_map_iff. split.
      * intros ([j x] & <- & Hin). apply insertIndexed_In in Hin.
        destruct Hin as [[= -> ->] | Hin].
        -- cbn [snd]. split; [now left | congruence].
        -- assert (Hx : In x (map snd (indexed rest)))
             by (apply in_map_iff; now exists (j, x)).
           apply IH in Hx. cbn [snd In]. tauto.
      * intros [[<- | Hin] Hne].
        -- exists (i, q). split; [reflexivity |].
           apply insertIndexed_In. now left.
        -- assert (Hx : In p (map snd (indexed rest))) by now apply IH.
           apply in_map_iff in Hx. destruct Hx as ([j x] & <- & Hx).
           exists (j, x). split; [reflexivity |].
           apply insertIndexed_In. now right.
    + rewrite IH. cbn [In]. split.
      * intros [Hin Hne]. tauto.
      * intros [[<- | Hin] Hne]; [congruence | tauto].
Qed.

(** [for ... in] visits every property of the object, and nothing else. *)
Lemma forIn_In {V : Type} (o : list (string * V)) (p : string * V) :
  In p (forIn o) <-> In p o.
Proof.
  unfold forIn. rewrite in_app_iff, indexed_In, filter_In.
  destruct (arrayIndex (fst p)); intuition congruence.
Qed.

(** The loop returns nothing when no interval of the table holds the
    width, whatever the table. *)
Lemma firstWithin_None visited (width : number) :
  (forall group low high,
      In (group, (low, high)) visited -> ~ Within width low high) ->
  firstWithin visited width = None.
Proof.
  induction visited as [| [group [low high]] rest IH]; intros Hout.
  - reflexivity.
  - cbn [firstWithin].
    destruct (ge width low && le width high) eqn:E.
    + apply loop_test in E. exfalso.
      apply (Hout group low high); [now left | assumption].
    + apply IH. intros g l h Hin. apply (Hout g). now right.
Qed.

Lemma getBreakpointGroup_None table (width : number) :
  (forall group low high,
      In (group, (low, high)) table -> ~ Within width low high) ->
  getBreakpointGroup table width = None.
Proof.
  intros Hout. apply firstWithin_None. intros g l h Hin.
  apply (Hout g). now apply forIn_In.
Qed.

(** What the loop returns is the name of an interval of the table that
    holds the width. *)
Lemma firstWithin_Some visited (width : number) (group : string) :
  firstWithin visited width = Some group ->
  exists low high,
    In (group, (low, high)) visited /\ Within width low high.
Proof.
  induction visited as [| [g [low high]] rest IH]; cbn [firstWithin].
  - discriminate.
  - destruct (ge width low && le width high) eqn:E.
    + intros [= <-]. exists low, high. split; [now left |].
      now apply loop_test.
    + intros H. destruct (IH H) as (l & h & Hin & Hw).
      exists l, h. split; [now right | assumption].
Qed.

Lemma getBreakpointGroup_Some table (width : number) (group : string) :
  getBreakpointGroup table width = Some group ->
  exists low high,
    In (group, (low, high)) table /\ Within width low high.
Proof.
  intros H. destruct (firstWithin_Some _ _ _ H) as (l & h & Hin & Hw).
  exists l, h. split; [now apply forIn_In | assumption].
Qed.

(** The keys of constants.js are no array indices: they are visited as
    they are written. *)
Lemma forIn_breakpoints : forIn Constants.breakpoints = Constants.breakpoints.
Proof. reflexivity. Qed.

(** C6.  A width that lies in none of the configured intervals is given
    no group at all: the hook's [breakpointGroup] is [undefined], which is
    none of the names, and so is what index.js's [getBreakpointGroup]
    returns. *)
Theorem unmatched_width_has_no_group (rn : host) :
  let w := rn.(window).(width) in
  (forall group low high,
      In (group, (low, high)) Constants.breakpoints -> ~ Within w low high) ->
  (useResponsive rn).(breakpointGroup) = None /\
  (forall group, (useResponsive rn).(breakpointGroup) <> Some group) /\
  (forall m, Index.screenWidth m = Some w ->
             Index.getBreakpointGroup m = Index.Normal None).
Proof.
  cbn zeta. intros Hout.
  assert (E : getBreakpointGroup Constants.breakpoints
                (width (window rn)) = None)
    by now apply getBreakpointGroup_None.
  cbn [useResponsive breakpointGroup]. rewrite E. repeat split.
  - discriminate.
  - intros m Hm. unfold Index.getBreakpointGroup. rewrite Hm.
    cbn [Index.read Index.bind]. now rewrite E.
Qed.

Lemma unmatched_width_has_no_group_witness :
  (forall group low high,
      In (group, (low, high)) Constants.breakpoints ->
      ~ Within 9000 low high) /\
  (useResponsive (phone 9000 812)).(breakpointGroup) = None.
Proof.
  assert (Hout : forall group low high,
             In (group, (low, high)) Constants.breakpoints ->
             ~ Within 9000 low high).
  { intros group low high Hin [_ Hhigh]. cbn in Hin.
    repeat (destruct Hin as [Hin | Hin];
            [injection Hin as <- <- <-; apply LessEq_Fin in Hhigh;
             revert Hhigh; apply Qlt_not_le; reflexivity |]).
    contradiction. }
  split; [exact Hout |].
  apply (unmatched_width_has_no_group (phone 9000 812)). exact Hout.
Defined.

(** Comparisons of whole numbers. *)
Lemma compare_inject_Z (a b : Z) :
  JS.compare (Fin (inject_Z a)) (Fin (inject_Z b)) = Some (a ?= b)%Z.
Proof.
  cbn [JS.compare]. unfold Qcompare. cbn [Qnum Qden inject_Z].
  now rewrite !Z.mul_1_r.
Qed.

Lemma ge_inject_Z (a b : Z) :
  ge (Fin (inject_Z a)) (Fin (inject_Z b)) = (b <=? a)%Z.
Proof.
  unfold ge. rewrite compare_inject_Z, Z.leb_compare, (Z.compare_antisym a b).
  now destruct (a ?= b)%Z.
Qed.

Lemma le_inject_Z (a b : Z) :
  le (Fin (inject_Z a)) (Fin (inject_Z b)) = (a <=? b)%Z.
Proof.
  unfold le. rewrite compare_inject_Z, Z.leb_compare.
  now destruct (a ?= b)%Z.
Qed.

(** The six intervals of constants.js do not overlap: a width lies in at
    most one of them. *)
Lemma breakpoints_disjoint (w : number) g1 low1 high1 g2 low2 high2 :
  In (g1, (low1, high1)) Constants.breakpoints ->
  In (g2, (low2, high2)) Constants.breakpoints ->
  Within w low1 high1 -> Within w low2 high2 -> g1 = g2.
Proof.
  intros H1 H2 [L1 U1] [L2 U2]. cbn in H1, H2.
  destruct w as [| | | q];
    try (exfalso; clear H2 L2 U2;
         repeat (destruct H1 as [H1 | H1];
                 [injection H1 as <- <- <-;
                  first [ solve [destruct L1 as [[]|[]]]
                        | solve [destruct U1 as [[]|[]]] ] |]);
         contradiction).
  repeat (destruct H1 as [H1 | H1];
          [injection H1 as <- <- <- |]); try contradiction;
    repeat (destruct H2 as [H2 | H2];
            [injection H2 as <- <- <- |]); try contradiction;
    try reflexivity;
    exfalso; apply LessEq_Fin in L1, U1, L2, U2; lra.
Qed.

(** Every whole width from 0 to 8192 gets a group, and its interval holds
    the width. *)
Lemma whole_width_classified (n : Z) (h : Q) :
  (0 <= n <= 8192)%Z ->
  exists group low high,
    (useResponsive (phone (inject_Z n) h)).(breakpointGroup) = Some group /\
    In (group, (Fin (inject_Z low), Fin (inject_Z high)))
       Constants.breakpoints /\
    (low <= n <= high)%Z.
Proof.
  intros Hn.
  cbn [useResponsive breakpointGroup phone window width].
  unfold getBreakpointGroup. rewrite forIn_breakpoints.
  unfold Constants.breakpoints.
  assert (Hstep : forall g lo hi rest,
    firstWithin
      ((g, (Fin (inject_Z lo), Fin (inject_Z hi))) :: rest)
      (Fin (inject_Z n))
    = if ((lo <=? n) && (n <=? hi))%Z%bool then Some g
      else firstWithin rest (Fin (inject_Z n))).
  { intros. cbn [firstWithin].
    now rewrite ge_inject_Z, le_inject_Z. }
  change (Fin 0) with (Fin (inject_Z 0)).
  change (Fin 399) with (Fin (inject_Z 399)).
  change (Fin 400) with (Fin (inject_Z 400)).
  change (Fin 599) with (Fin (inject_Z 599)).
  change (Fin 600) with (Fin (inject_Z 600)).
  change (Fin 767) with (Fin (inject_Z 767)).
  change (Fin 768) with (Fin (inject_Z 768)).
  change (Fin 1007) with (Fin (inject_Z 1007)).
  change (Fin 1008) with (Fin (inject_Z 1008)).
  change (Fin 1279) with (Fin (inject_Z 1279)).
  change (Fin 1280) with (Fin (inject_Z 1280)).
  change (Fin 8192) with (Fin (inject_Z 8192)).
  repeat
    (rewrite Hstep;
     match goal with
     | |- context [((?lo <=? n) && (n <=? ?hi))%Z%bool] =>
         let E := fresh "E" in
         destruct ((lo <=? n) && (n <=? hi))%Z%bool eqn:E;
         [ apply andb_true_iff in E;
           let E1 := fresh "E" in let E2 := fresh "E" in
           destruct E as [E1 E2];
           apply Z.leb_le in E1, E2;
           eexists _, lo, hi; split; [reflexivity |];
           split; [cbn; tauto | lia]
         | apply andb_false_iff in E;
           rewrite !Z.leb_gt in E ]
     end).
  exfalso. lia.
Qed.

(** C1.  The classification is not total on the widths the claim names:
    the whole width 9000, between 0 and 10000, gets no group, because the
    last interval of constants.js ends at 8192; and neither does 399.5,
    which falls between two intervals. *)
Theorem breakpoints_not_exhaustive :
  (0 <= 9000 <= 10000)%Z /\
  (useResponsive (phone (inject_Z 9000) 812)).(breakpointGroup) = None /\
  (useResponsive (phone (799 # 2) 812)).(breakpointGroup) = None.
Proof. split; [lia |]. split; vm_compute; reflexivity. Qed.

(* ===================================================================== *)
(** ** Device pixels: wp and hp                                           *)
(* ===================================================================== *)

(** The share [p] percent of an axis of size [a] in device pixels at
    density [d] is non-negative and grows with [p]. *)
Lemma pixels_mono (a d p q : Q) :
  0 <= a -> 0 < d -> 0 <= p -> p <= q ->
  LessEq 0 (roundToNearestPixel (Fin d) (div (mul (Fin a) (Fin p)) 100)) /\
  LessEq (roundToNearestPixel (Fin d) (div (mul (Fin a) (Fin p)) 100))
         (roundToNearestPixel (Fin d) (div (mul (Fin a) (Fin q)) 100)).
Proof.
  intros Ha Hd Hp Hpq. unfold roundToNearestPixel.
  assert (X0 : LessEq 0 (mul (Fin a) (Fin p)))
    by (cbn [mul]; apply round64_nonneg, Qmult_le_0_compat; assumption).
  assert (M0 := mul_Fin_mono a p q Ha Hpq).
  destruct (quotient_mono 100 _ _ eq_refl X0 M0) as [X1 M1].
  destruct (scale_mono d _ _ Hd X1 M1) as [X2 M2].
  assert (X3 := round_nonneg _ X2). assert (M3 := round_mono _ _ M2).
  exact (quotient_mono d _ _ Hd X3 M3).
Qed.

(** The share [p] percent of an axis whose size is a non-negative double,
    in viewport units, is non-negative and grows with [p]. *)
Lemma viewport_mono (a p q : Q) :
  0 <= a -> isDouble a = true -> 0 <= p -> p <= q ->
  LessEq 0 (floor (mul (div (Fin a) 100) (Fin p))) /\
  LessEq (floor (mul (div (Fin a) 100) (Fin p)))
         (floor (mul (div (Fin a) 100) (Fin q))).
Proof.
  intros Ha Da Hp Hpq.
  assert (Hle : a / 100 <= a)
    by (unfold Qdiv; change (/ 100) with (1 # 100); lra).
  assert (H0 : 0 <= a / 100)
    by (unfold Qdiv; change (/ 100) with (1 # 100); lra).
  destruct (below_double_finite (a / 100) a H0 Hle Da) as (c & Ec & Hc & _).
  change (div (Fin a) 100) with (round64 (a / 100)). rewrite Ec. split.
  - apply floor_nonneg. cbn [mul]. apply round64_nonneg.
    now apply Qmult_le_0_compat.
  - apply floor_mono. now apply mul_Fin_mono.
Qed.



(** Refutation of C4 as stated: at width 375 and density 1, [wp(-10)] is
    [Math.round(-37.5)], that is -37, which is not a non-negative number. *)
Lemma wp_of_negative_percentage :
  (useResponsive (phone 375 812)).(wp) (Number (-10)) = Fin (-37) /\
  ~ LessEq 0 ((useResponsive (phone 375 812)).(wp) (Number (-10))).
Proof.
  assert (E : (useResponsive (phone 375 812)).(wp) (Number (-10)) = Fin (-37))
    by (vm_compute; reflexivity).
  split; [exact E |]. rewrite E, LessEq_Fin. apply Qlt_not_le. reflexivity.
Qed.

(** C4, amended.  For every percentage, a number or a string, [wp] is
    [round_to_nearest_pixel(width * p / 100)] and [hp] the same over the
    height; the functions are total, so nothing is raised whatever the
    percentage; and the output is non-negative when the percentage is a
    non-negative finite number (the axis size being finite and
    non-negative, the density positive). *)
Theorem wp_hp_formula (rn : host) (percent : value) :
  let r := useResponsive rn in
  r.(wp) percent
    = spec_pixels rn.(PixelRatio_get) rn.(window).(width)
                  (numberOrParse percent) /\
  r.(hp) percent
    = spec_pixels rn.(PixelRatio_get) rn.(window).(height)
                  (numberOrParse percent) /\
  (forall a b d p : Q,
      rn.(window) = {| width := a; height := b |} ->
      rn.(PixelRatio_get) = Fin d ->
      numberOrParse percent = Fin p ->
      0 <= a -> 0 <= b -> 0 < d -> 0 <= p ->
      LessEq 0 (r.(wp) percent) /\ LessEq 0 (r.(hp) percent)).
Proof.
  cbn zeta. split; [reflexivity |]. split; [reflexivity |].
  intros a b d p Hwin Hd Hp Ha Hb Hd0 Hp0.
  cbn [useResponsive wp hp]. rewrite Hwin, Hd, Hp. cbn [width height].
  split;
    [ apply (pixels_mono a d p p) | apply (pixels_mono b d p p) ];
    try assumption; apply Qle_refl.
Qed.

Lemma wp_hp_formula_witness :
  LessEq 0 ((useResponsive (phone 375 812)).(wp) (Str "50%")) /\
  LessEq 0 ((useResponsive (phone 375 812)).(hp) (Str "50%")).
Proof.
  apply (proj2 (proj2 (wp_hp_formula (phone 375 812) (Str "50%")))
           375 812 1 50);
    solve [reflexivity | discriminate | vm_compute; reflexivity].
Defined.

(* ===================================================================== *)
(** ** Monotonicity in the percentage                                     *)
(* ===================================================================== *)




(** [wp] and [vw] are different units: at width 375, [wp(50)] is 188 at
    density 1 and 187.5 at density 2, while [vw(50)] is 187. *)
Example wp_vw_differ :
  (useResponsive (phone 375 812)).(wp) (Number 50) = Fin 188 /\
  (useResponsive {| window := {| width := 375; height := 812 |};
                    PixelRatio_get := 2;
                    Platform_OS := "android" |}).(wp) (Number 50)
    = Fin (375 # 2) /\
  (useResponsive (phone 375 812)).(vw) (Number 50) = Fin 187.
Proof. repeat split; vm_compute; reflexivity. Qed.

(* ===================================================================== *)
(** ** The orientation listener of index.js                               *)
(* ===================================================================== *)

Section Listener.

Import Index.

Lemma filter_all {A : Type} (f : A -> bool) (l : list A) :
  Forall (fun x => f x = true) l -> filter f l = l.
Proof.
  induction 1 as [| x l Hx _ IH]; cbn; [reflexivity |].
  now rewrite Hx, IH.
Qed.

Lemma removeOrientationListener_listeners (rt : runtime) :
  older rt -> (removeOrientationListener rt).(listeners) = rt.(listeners).
Proof.
  intros Hold. cbn [removeOrientationListener listeners].
  apply filter_all. revert Hold. apply Forall_impl. intros l Hl.
  apply negb_true_iff, Nat.eqb_neq. lia.
Qed.

Lemma perform_older (rt : runtime) (c : call) :
  older rt -> older (perform rt c).
Proof.
  intros Hold. destruct c as [that |]; unfold older.
  - cbn [perform listenOrientationChange listeners nextRef].
    apply Forall_app. split.
    + revert Hold. apply Forall_impl. intros l Hl. lia.
    + constructor; [cbn; lia | constructor].
  - cbn [perform]. rewrite (removeOrientationListener_listeners rt Hold).
    cbn [removeOrientationListener nextRef].
    revert Hold. apply Forall_impl. intros l Hl. lia.
Qed.

Lemma perform_all (calls : list call) (rt : runtime) :
  older rt ->
  map snd (fold_left perform calls rt).(listeners)
  = (map snd rt.(listeners) ++ mounted calls)%list.
Proof.
  revert rt. induction calls as [| c calls IH]; intros rt Hold; cbn.
  - now rewrite app_nil_r.
  - rewrite (IH _ (perform_older rt c Hold)). destruct c as [that |].
    + cbn [perform listenOrientationChange listeners].
      now rewrite map_app, <- app_assoc.
    + cbn [perform]. now rewrite removeOrientationListener_listeners.
Qed.

Lemma onChange_fold (d : ScaledSize) (ls : list (ref * component))
  (rt : runtime) :
  let rt' := fold_left (fun rt l => onChange d (snd l) rt) ls rt in
  rt'.(listeners) = rt.(listeners) /\
  rt'.(setStateCalls)
  = (rt.(setStateCalls)
     ++ map (fun l => (snd l, orientation d.(width) d.(height))) ls)%list /\
  rt'.(bindings)
  = match ls with
    | [] => rt.(bindings)
    | _ => init_screenHeight d.(height)
             (init_screenWidth d.(width) rt.(bindings))
    end.
Proof.
  cbn zeta. revert rt. induction ls as [| l ls IH]; intros rt; cbn.
  - now rewrite app_nil_r.
  - destruct (IH (onChange d (snd l) rt)) as (E1 & E2 & E3).
    rewrite E1, E2, E3. cbn [onChange listeners setStateCalls bindings].
    rewrite <- app_assoc. repeat split.
    now destruct ls.
Qed.

End Listener.

(** X1.  [removeOrientationListener] removes nothing: whatever sequence of
    [listenOrientationChange] and [removeOrientationListener] calls the
    screens make after the module is loaded, the registered listeners are
    those of all the [listenOrientationChange] calls, in order. *)
Theorem listeners_are_never_removed
  (m : Index.scope) (calls : list Index.call) :
  map snd (fold_left Index.perform calls (Index.loaded m)).(Index.listeners)
  = Index.mounted calls.
Proof.
  rewrite perform_all; [reflexivity |]. constructor.
Qed.

(** X2.  On a change of the window every screen that ever called
    [listenOrientationChange] has its [setState] called, once for each of
    its calls and in their order, with the orientation of the new window;
    the calls of [removeOrientationListener] in between change nothing. *)
Theorem change_notifies_every_registration
  (m : Index.scope) (calls : list Index.call) (d : ScaledSize) :
  (Index.change d (fold_left Index.perform calls (Index.loaded m)))
    .(Index.setStateCalls)
  = map (fun that => (that, Index.orientation d.(width) d.(height)))
        (Index.mounted calls).
Proof.
  unfold Index.change.
  destruct (onChange_fold d
              (fold_left Index.perform calls (Index.loaded m)).(Index.listeners)
              (fold_left Index.perform calls (Index.loaded m)))
    as (_ & E & _).
  rewrite E.
  assert (Hlog : forall cs rt,
    (fold_left Index.perform cs rt).(Index.setStateCalls)
    = rt.(Index.setStateCalls)).
  { induction cs as [| c cs IH]; intros rt; cbn; [reflexivity |].
    rewrite IH. now destruct c. }
  rewrite Hlog. cbn [Index.loaded Index.setStateCalls app].
  assert (H := perform_all calls (Index.loaded m) (Forall_nil _)).
  cbn [Index.loaded Index.listeners map app] in H.
  now rewrite <- H, map_map.
Qed.

(** X3.  A change of the window reaches the module only through a
    registered listener.  With one, [screenWidth] and [screenHeight] take
    the new size, and [base], [isLandscape], [isPortrait] and
    [breakpointGroup] keep what they held; with none, nothing changes. *)
Theorem change_updates_sizes_only (rt : Index.runtime) (d : ScaledSize) :
  let m := rt.(Index.bindings) in
  let m' := (Index.change d rt).(Index.bindings) in
  (rt.(Index.listeners) <> [] ->
   Index.screenWidth m' = Some d.(width) /\
   Index.screenHeight m' = Some d.(height) /\
   Index.base m' = Index.base m /\
   Index.isLandscape m' = Index.isLandscape m /\
   Index.isPortrait m' = Index.isPortrait m /\
   Index.breakpointGroup m' = Index.breakpointGroup m) /\
  (rt.(Index.listeners) = [] -> m' = m).
Proof.
  cbn zeta. unfold Index.change.
  destruct (onChange_fold d rt.(Index.listeners) rt) as (_ & _ & E).
  rewrite E. split.
  - intros Hne. destruct (Index.listeners rt); [contradiction |].
    repeat split.
  - now intros ->.
Qed.

Lemma change_updates_sizes_only_witness :
  Index.screenWidth
    (Index.change {| width := 812; height := 375 |}
       (Index.listenOrientationChange "Home"
          (Index.loaded
             (Index.init_base 375 Index.uninitialized)))).(Index.bindings)
  = Some (Fin 812) /\
  Index.base
    (Index.change {| width := 812; height := 375 |}
       (Index.listenOrientationChange "Home"
          (Index.loaded
             (Index.init_base 375 Index.uninitialized)))).(Index.bindings)
  = Some (Fin 375).
Proof.
  destruct (proj1 (change_updates_sizes_only
                     (Index.listenOrientationChange "Home"
                        (Index.loaded
                           (Index.init_base 375 Index.uninitialized)))
                     {| width := 812; height := 375 |}))
    as (Hw & _ & Hb & _).
  - discriminate.
  - split; [exact Hw | exact Hb].
Defined.

(** X4.  After a change seen by a listener, the functions of index.js
    that read the sizes when called give what the hook gives for the new
    window, but [remUnit] still scales by the [base] computed when the
    module was loaded. *)
Theorem functions_after_change
  (rn : host) (rt : Index.runtime) (d : ScaledSize) (b : number)
  (v : value) :
  rt.(Index.listeners) <> [] ->
  Index.base rt.(Index.bindings) = Some b ->
  let m' := (Index.change d rt).(Index.bindings) in
  let r := useResponsive {| window := d;
                            PixelRatio_get := rn.(PixelRatio_get);
                            Platform_OS := rn.(Platform_OS) |} in
  Index.widthPercentageToDP rn m' v = Index.Normal (r.(wp) v) /\
  Index.heightPercentageToDP rn m' v = Index.Normal (r.(hp) v) /\
  Index.viewportWidthPercentage m' v = Index.Normal (r.(vw) v) /\
  Index.viewportHeightPercentage m' v = Index.Normal (r.(vh) v) /\
  Index.getBreakpointGroup m' = Index.Normal r.(breakpointGroup) /\
  Index.remUnit m' v
  = Index.Normal
      (floor (mul (mul (div b Constants.baseDevice.(width))
                       (numberOrParse v))
                  (if lt (max d.(height) d.(width))
                         Constants.baseDevice.(height)
                   then literal 0.9 else 1))).
Proof.
  intros Hne Hb. cbn zeta. unfold Index.change.
  destruct (onChange_fold d rt.(Index.listeners) rt) as (_ & _ & E).
  rewrite E. destruct (Index.listeners rt); [contradiction |].
  unfold Index.remUnit.
  cbn [Index.init_screenHeight Index.init_screenWidth Index.base
       Index.screenWidth Index.screenHeight].
  rewrite Hb. repeat split.
Qed.

Lemma functions_after_change_witness :
  Index.remUnit
    (Index.change {| width := 768; height := 1024 |}
       (Index.listenOrientationChange "Home"
          (Index.loaded
             (Index.init_base 375 Index.uninitialized)))).(Index.bindings)
    (Number 16)
  = Index.Normal (Fin 16) /\
  (useResponsive (phone 768 1024)).(rem) (Number 16) = Fin 32.
Proof.
  split; [| vm_compute; reflexivity].
  apply (functions_after_change (phone 768 1024)
           (Index.listenOrientationChange "Home"
              (Index.loaded (Index.init_base 375 Index.uninitialized)))
           {| width := 768; height := 1024 |} 375 (Number 16)).
  - discriminate.
  - reflexivity.
Defined.

(** X5.  The orientation a listener reports is ['portrait'] exactly when
    the hook's [isPortrait] is true for the same window; a window that is
    neither portrait nor landscape for the hook (a square one) is
    reported as ['landscape']. *)
Theorem reported_orientation (rn : host) :
  let w := rn.(window).(width) in
  let h := rn.(window).(height) in
  let r := useResponsive rn in
  (Index.orientation w h = "portrait" <-> r.(isPortrait) = true) /\
  (Same w h ->
   Index.orientation w h = "landscape" /\ r.(isLandscape) = false).
Proof.
  cbn zeta. unfold Index.orientation.
  cbn [useResponsive isPortrait isLandscape]. split.
  - destruct (lt _ _); split; congruence.
  - intros Hsame. destruct (Same_not_Less _ _ Hsame) as [H1 H2]. split.
    + destruct (lt _ _) eqn:E; [| reflexivity].
      apply lt_Less in E. contradiction.
    + apply not_true_is_false. now rewrite gt_Less.
Qed.

Lemma reported_orientation_witness :
  Index.orientation 500 500 = "landscape" /\
  (useResponsive (phone 500 500)).(isLandscape) = false.
Proof.
  apply (proj2 (reported_orientation (phone 500 500))). reflexivity.
Defined.

(* ===================================================================== *)
(** ** Arguments that are strings                                         *)
(* ===================================================================== *)

Lemma mul_NaN_r (x : number) : mul x NaN = NaN.
Proof. now destruct x. Qed.

(** X6.  An argument that does not parse as a number never makes a
    function of the hook throw: [wp], [hp], [vw] and [vh] return [NaN]
    for it (also when the argument is left out), and so do [rem] and [rf]
    when an argument is given. *)
Theorem unparseable_argument_gives_NaN (rn : host) (v : value) :
  numberOrParse v = NaN ->
  let r := useResponsive rn in
  r.(wp) v = NaN /\ r.(hp) v = NaN /\ r.(vw) v = NaN /\ r.(vh) v = NaN /\
  (v <> Undefined -> r.(rem) v = NaN /\ r.(rf) v = NaN).
Proof.
  intros Hv. cbn zeta.
  cbn [useResponsive wp hp vw vh rem rf]. rewrite Hv, !mul_NaN_r.
  repeat split.
  - destruct v as [| n | s]; [contradiction | |];
      cbn [withDefault]; rewrite Hv, mul_NaN_r; reflexivity.
  - destruct v as [| n | s]; [contradiction | |];
      cbn [withDefault]; rewrite Hv; reflexivity.
Qed.

Lemma unparseable_argument_gives_NaN_witness :
  numberOrParse (Str "wide") = NaN /\
  (useResponsive (phone 375 812)).(wp) (Str "wide") = NaN /\
  (useResponsive (phone 375 812)).(rem) (Str "wide") = NaN.
Proof.
  split; [reflexivity |].
  destruct (unparseable_argument_gives_NaN (phone 375 812) (Str "wide")
              eq_refl) as (Hwp & _ & _ & _ & Hrem).
  split; [exact Hwp |]. apply Hrem. discriminate.
Defined.

Lemma parseFloat_digit (c : ascii) (d : Z) (r : string) :
  digit c = Some d ->
  parseFloat (String c r) = unsignedLiteral (String c r) /\
  String.prefix "Infinity" (String c r) = false.
Proof.
  destruct c as [[] [] [] [] [] [] [] []]; cbn [digit]; try discriminate;
    intros _; split; reflexivity.
Qed.

Lemma digits_percent (s : string) :
  digitsOnly s = true ->
  digits s = (fst (digits s), "") /\
  digits (s ++ "%") = (fst (digits s), "%").
Proof.
  induction s as [| c s IH]; cbn; [now split |].
  destruct (digit c); [| discriminate].
  intros Hs. destruct (IH Hs) as [E1 E2]. rewrite E2.
  destruct (digits s) as [ds rest]. cbn in *.
  injection E1 as ->. now split.
Qed.

Lemma decimal_nonneg (s : string) (ds : list Z) :
  digits s = (ds, "") -> (0 <= decimal ds)%Z.
Proof.
  intros E.
  assert (Hall : forall t l, digits t = (l, "") ->
            Forall (fun x => (0 <= x)%Z) l).
  { induction t as [| a t IHt]; cbn; intros l.
    - intros [= <-]. constructor.
    - destruct (digit a) as [x |] eqn:Ha; [| discriminate].
      destruct (digits t) as [l' rest]. intros [= <- ->].
      constructor; [| now apply IHt].
      unfold digit in Ha.
      destruct ((48 <=? Z.of_nat (nat_of_ascii a))
                && (Z.of_nat (nat_of_ascii a) <=? 57))%Z%bool eqn:B;
        [| discriminate].
      injection Ha as <-. apply andb_true_iff in B. lia. }
  specialize (Hall _ _ E). unfold decimal.
  assert (Hfold : forall l acc, (0 <= acc)%Z ->
            Forall (fun x => (0 <= x)%Z) l ->
            (0 <= fold_left (fun a x => 10 * a + x) l acc)%Z).
  { induction l as [| x l IHl]; cbn [fold_left]; intros acc Hacc Hl;
      [assumption |].
    inversion Hl; subst. apply IHl; [lia | assumption]. }
  apply Hfold; [lia | assumption].
Qed.

(** X7.  A percent sign after the digits is ignored: for every non-empty
    string of decimal digits, the string with ["%"] appended is read as
    the same non-negative number, so every function of the hook returns
    the same for both. *)
Theorem percent_sign_is_ignored (rn : host) (s : string) :
  digitsOnly s = true -> s <> "" ->
  let r := useResponsive rn in
  numberOrParse (Str (s ++ "%")) = numberOrParse (Str s) /\
  LessEq 0 (numberOrParse (Str s)) /\
  r.(wp) (Str (s ++ "%")) = r.(wp) (Str s) /\
  r.(hp) (Str (s ++ "%")) = r.(hp) (Str s) /\
  r.(vw) (Str (s ++ "%")) = r.(vw) (Str s) /\
  r.(vh) (Str (s ++ "%")) = r.(vh) (Str s) /\
  r.(rem) (Str (s ++ "%")) = r.(rem) (Str s) /\
  r.(rf) (Str (s ++ "%")) = r.(rf) (Str s).
Proof.
  intros Hs Hne. cbn zeta.
  assert (E : numberOrParse (Str (s ++ "%")) = numberOrParse (Str s)
              /\ LessEq 0 (numberOrParse (Str s))).
  { destruct (digits_percent s Hs) as [E1 E2].
    destruct s as [| c s']; [contradiction |].
    cbn [numberOrParse].
    cbn [digitsOnly] in Hs. destruct (digit c) as [d |] eqn:Hc;
      [| discriminate].
    change (String c s' ++ "%") with (String c (s' ++ "%")) in *.
    destruct (parseFloat_digit c d s' Hc) as [-> Hinf].
    destruct (parseFloat_digit c d (s' ++ "%") Hc) as [-> Hinf'].
    unfold unsignedLiteral. rewrite Hinf, Hinf', E1, E2.
    assert (Hds : fst (digits (String c s')) <> []).
    { cbn [digits]. rewrite Hc. now destruct (digits s'). }
    assert (Hpos := decimal_nonneg _ _ E1).
    destruct (fst (digits (String c s'))) as [| d0 ds] eqn:Eds;
      [contradiction |].
    split; [reflexivity |].
    apply round64_nonneg. cbn [exponent scale10].
    change 0 with (inject_Z 0). rewrite <- Zle_Qle. lia. }
  destruct E as [E Hn]. split; [exact E |]. split; [exact Hn |].
  cbn [useResponsive wp hp vw vh rem rf withDefault]. rewrite E.
  repeat split.
Qed.

Lemma percent_sign_is_ignored_witness :
  (useResponsive (phone 375 812)).(vw) (Str ("50" ++ "%"))
  = (useResponsive (phone 375 812)).(vw) (Str "50").
Proof.
  apply (percent_sign_is_ignored (phone 375 812) "50");
    [reflexivity | discriminate].
Defined.

(* ===================================================================== *)
(** ** More on rem and rf                                                 *)
(* ===================================================================== *)

Lemma Alike_Fin (a b : Q) : a == b -> Alike (Fin a) (Fin b).
Proof. now intros E. Qed.

Lemma Alike_refl (x : number) : Alike x x.
Proof. destruct x; cbn; try exact I. reflexivity. Qed.

Lemma infTimes_compat (negative : bool) (a b : Q) :
  a == b -> infTimes negative a = infTimes negative b.
Proof. intros E. unfold infTimes. now rewrite E. Qed.

Lemma mul_Alike (x x' y : number) : Alike x x' -> Alike (mul x y) (mul x' y).
Proof.
  destruct x, x'; cbn [Alike Same]; try contradiction; intros E;
    try apply Alike_refl.
  destruct y as [| | | b]; cbn [mul]; try exact I;
    try (rewrite (infTimes_compat _ _ _ E); apply Alike_refl).
  assert (E' : q * b == q0 * b) by now rewrite E.
  rewrite (round64_compat _ _ E'). apply Alike_refl.
Qed.

Lemma div_Alike (x x' y : number) : Alike x x' -> Alike (div x y) (div x' y).
Proof.
  destruct x, x'; cbn [Alike Same]; try contradiction; intros E;
    try apply Alike_refl.
  destruct y as [| | | b]; cbn [div]; try exact I; try apply Alike_refl.
  rewrite E.
  assert (E' : q / b == q0 / b) by now rewrite E.
  rewrite (round64_compat _ _ E'). apply Alike_refl.
Qed.

Lemma floor_Alike (x y : number) : Alike x y -> floor x = floor y.
Proof.
  destruct x, y; cbn; try contradiction; try reflexivity.
  intros E. now rewrite (Qfloor_comp _ _ E).
Qed.

Lemma font_bound :
  mul Constants.baseFontSize Constants.maxFontScaleFactor = Fin 32.
Proof. vm_compute. reflexivity. Qed.

(** X8.  [rem] does not depend on the orientation: on a window of finite
    size, turning the device (width and height exchanged) leaves
    [rem(size)] unchanged for every argument.  The base it scales by is
    the shorter side either way. *)
Theorem rem_ignores_rotation (rn : host) (size : value) :
  isFinite rn.(window).(width) = true ->
  isFinite rn.(window).(height) = true ->
  (useResponsive (rotated rn)).(rem) size = (useResponsive rn).(rem) size.
Proof.
  destruct rn as [[w h] ratio os]. cbn [window width height].
  destruct w as [| | | w]; try discriminate.
  destruct h as [| | | h]; try discriminate. intros _ _.
  cbn [useResponsive rem rotated window width height].
  rewrite (max_comm_lt (Fin w) (Fin h)).
  apply floor_Alike, mul_Alike, mul_Alike, div_Alike.
  unfold gt. cbn [JS.compare]. rewrite <- (Qcompare_antisym w h).
  destruct (w ?= h) eqn:E; cbn [CompOpp]; apply Alike_Fin;
    try reflexivity.
  symmetry. now apply Qeq_alt.
Qed.

Lemma rem_ignores_rotation_witness :
  (useResponsive (rotated (phone 360 640))).(rem) (Number 20)
  = (useResponsive (phone 360 640)).(rem) (Number 20).
Proof.
  apply (rem_ignores_rotation (phone 360 640)); reflexivity.
Defined.

(** The two multipliers of [rem]. *)
Lemma multiplier_cases (x : number) :
  exists m : Q,
    (if lt x Constants.baseDevice.(height) then literal 0.9 else 1) = Fin m /\
    0 < m /\ m <= 1.
Proof.
  destruct (lt x Constants.baseDevice.(height)).
  - eexists. split; [vm_compute; reflexivity |]. split; reflexivity || discriminate.
  - exists 1. split; [reflexivity |]. split; reflexivity || discriminate.
Qed.

(** The base of [rem] is the shorter side. *)
Lemma base_cases (w h : Q) :
  exists b : Q,
    (if gt (Fin w) (Fin h) then Fin h else Fin w) = Fin b /\
    b <= w /\ b <= h /\ (b == w \/ b == h).
Proof.
  unfold gt. cbn [JS.compare]. destruct (w ?= h) eqn:C.
  - apply Qeq_alt in C. exists w. repeat split; try lra.
  - apply Qlt_alt in C. exists w. repeat split; try lra.
  - apply Qgt_alt in C. exists h. repeat split; try lra.
Qed.

(** X9.  On the reference device, 375 wide and at least 812 high, [rem]
    is [Math.floor]: a whole size comes back as it is. *)
Theorem rem_on_reference_device (rn : host) (w h s : Q) :
  rn.(window) = {| width := w; height := h |} ->
  w == 375 -> 812 <= h -> isDouble s = true ->
  (useResponsive rn).(rem) (Number s) = Fin (inject_Z (Qfloor s)).
Proof.
  intros Hwin Hw Hh Ds. cbn [useResponsive rem withDefault numberOrParse].
  rewrite Hwin. cbn [width height].
  assert (Hlt : w < h) by lra.
  change Constants.baseDevice.(height) with (Fin 812).
  change Constants.baseDevice.(width) with (Fin 375).
  unfold gt, lt, max. cbn [JS.compare].
  rewrite (proj1 (Qlt_alt w h) Hlt).
  rewrite (proj1 (Qgt_alt h w) Hlt). cbn [JS.compare].
  assert (Hm : match h ?= 812 with Lt => true | _ => false end = false).
  { destruct (h ?= 812) eqn:E; try reflexivity. apply Qlt_alt in E. lra. }
  rewrite Hm.
  assert (E1 : div (Fin w) (Fin 375) = Fin 1).
  { cbn [div]. change (375 ?= 0) with Gt. cbv iota.
    rewrite (round64_compat (w / 375) 1) by (rewrite Hw; reflexivity).
    vm_compute. reflexivity. }
  rewrite E1.
  destruct (isDouble_mul s 1 s Ds) as (x & -> & Ex); [ring |].
  destruct (isDouble_mul s x 1 Ds) as (y & -> & Ey); [rewrite Ex; ring |].
  cbn [floor]. now rewrite (Qfloor_comp _ _ Ey).
Qed.

Lemma rem_on_reference_device_witness :
  (useResponsive (phone 375 896)).(rem) (Number (35 # 2)) = Fin 17.
Proof.
  apply (rem_on_reference_device (phone 375 896) 375 896 (35 # 2));
    solve [reflexivity | discriminate | vm_compute; reflexivity].
Defined.

(** X10.  On a window of finite non-negative size, [rem] never turns a
    non-negative size negative and keeps the order of sizes; and when the
    shorter side is at most 375 it never returns more than the size it is
    given. *)
Theorem rem_monotone_and_bounded (rn : host) (w h s t : Q) :
  rn.(window) = {| width := w; height := h |} ->
  isDouble w = true -> isDouble h = true -> isDouble s = true ->
  0 <= w -> 0 <= h -> 0 <= s -> s <= t ->
  let r := useResponsive rn in
  LessEq 0 (r.(rem) (Number s)) /\
  LessEq (r.(rem) (Number s)) (r.(rem) (Number t)) /\
  ((w <= 375 \/ h <= 375) -> LessEq (r.(rem) (Number s)) s).
Proof.
  intros Hwin Dw Dh Ds Hw Hh Hs Hst. cbn zeta.
  cbn [useResponsive rem withDefault numberOrParse].
  rewrite Hwin. cbn [width height].
  destruct (multiplier_cases (max (Fin h) (Fin w))) as (m & -> & Hm0 & Hm1).
  destruct (base_cases w h) as (b & -> & Hbw & Hbh & Hb).
  change Constants.baseDevice.(width) with (Fin 375).
  assert (Hb0 : 0 <= b) by (destruct Hb as [E | E]; rewrite E; assumption).
  assert (Db : exists a, isDouble a = true /\ b <= a).
  { destruct Hb as [E | E]; [exists w | exists h];
      (split; [assumption | rewrite E; apply Qle_refl]). }
  destruct Db as (a & Da & Hba).
  assert (Hq0 : 0 <= b / 375)
    by (unfold Qdiv; change (/ 375) with (1 # 375); lra).
  assert (Hqa : b / 375 <= a)
    by (unfold Qdiv; change (/ 375) with (1 # 375); lra).
  destruct (below_double_finite (b / 375) a Hq0 Hqa Da) as (c & Ec & Hc & _).
  change (div (Fin b) (Fin 375)) with (round64 (b / 375)). rewrite Ec.
  assert (X0 : LessEq 0 (mul (Fin c) (Fin s)))
    by (cbn [mul]; apply round64_nonneg, Qmult_le_0_compat; assumption).
  assert (M0 := mul_Fin_mono c s t Hc Hst).
  destruct (scale_mono m _ _ Hm0 X0 M0) as [X1 M1].
  split; [now apply floor_nonneg |]. split; [now apply floor_mono |].
  intros Hshort.
  assert (Hb375 : b <= 375) by (destruct Hshort; lra).
  assert (Hc1 : c <= 1).
  { assert (M := round64_mono (b / 375) 1). rewrite Ec in M.
    change (round64 1) with (literal 1) in M.
    assert (E1 : literal 1 = Fin 1) by (vm_compute; reflexivity).
    rewrite E1 in M. apply LessEq_Fin, M.
    unfold Qdiv. change (/ 375) with (1 # 375). lra. }
  destruct (isDouble_round64 s s Ds (Qeq_refl s)) as (s' & Es & Ess).
  assert (Hcs : c * s <= s).
  { rewrite <- (Qmult_1_l s) at 2. apply Qmult_le_compat_r; assumption. }
  assert (B1 := round64_mono (c * s) s Hcs). rewrite Es in B1.
  destruct (proj1 (round64_cases (c * s)))
    as [E | (x & Ex & Hx)]; [now apply Qmult_le_0_compat | |].
  { rewrite E in B1. destruct B1 as [[] | []]. }
  rewrite Ex in B1. apply LessEq_Fin in B1.
  cbn [mul]. rewrite Ex.
  assert (Hxm : x * m <= s).
  { apply Qle_trans with (x * 1); [| lra].
    rewrite !(Qmult_comm x). now apply Qmult_le_compat_r. }
  assert (B2 := round64_mono (x * m) s Hxm). rewrite Es in B2.
  destruct (proj1 (round64_cases (x * m)))
    as [E | (y & Ey & Hy)]; [apply Qmult_le_0_compat; lra | |].
  { rewrite E in B2. destruct B2 as [[] | []]. }
  rewrite Ey in B2. apply LessEq_Fin in B2. cbn [mul]. rewrite Ey.
  cbn [floor]. apply LessEq_Fin.
  apply Qle_trans with y; [apply Qfloor_le | lra].
Qed.

Lemma rem_monotone_and_bounded_witness :
  LessEq 0 ((useResponsive (phone 360 640)).(rem) (Number 12)) /\
  LessEq ((useResponsive (phone 360 640)).(rem) (Number 12))
         ((useResponsive (phone 360 640)).(rem) (Number 20)) /\
  LessEq ((useResponsive (phone 360 640)).(rem) (Number 12)) 12.
Proof.
  destruct (rem_monotone_and_bounded (phone 360 640) 360 640 12 20)
    as (H1 & H2 & H3);
    try solve [reflexivity | discriminate | vm_compute; reflexivity].
  split; [exact H1 |]. split; [exact H2 |].
  apply H3. left. discriminate.
Defined.

(** X11.  [rf] never returns more than 32 (it returns [NaN] only for an
    argument that is not a number), applying it twice is applying it
    once, and it keeps the order of sizes. *)
Theorem rf_bounded_idempotent_monotone (rn : host) (v : value) (a b : Q) :
  let r := useResponsive rn in
  (LessEq (r.(rf) v) 32 \/
   (r.(rf) v = NaN /\ numberOrParse (withDefault 0 v) = NaN)) /\
  r.(rf) (Number (r.(rf) v)) = r.(rf) v /\
  (a <= b -> LessEq (r.(rf) (Number a)) (r.(rf) (Number b))).
Proof.
  cbn zeta. cbn [useResponsive rf]. rewrite font_bound.
  repeat split.
  - cbn [withDefault numberOrParse].
    destruct (numberOrParse (withDefault 0 v)) as [| | | e].
    + right. now split.
    + left. right. exact (eq_refl : 32 == 32).
    + left. left. exact I.
    + left. unfold min. cbn [JS.compare].
      destruct (32 ?= e) eqn:E;
        [ right; exact (eq_refl : 32 == 32)
        | right; exact (eq_refl : 32 == 32)
        | apply Qgt_alt in E; left; exact E ].
  - cbn [withDefault numberOrParse].
    destruct (numberOrParse (withDefault 0 v)) as [| | | e]; try reflexivity.
    unfold min. cbn [JS.compare].
    destruct (32 ?= e) eqn:E; cbn [JS.compare]; try reflexivity.
    now rewrite E.
  - intros Hab. cbn [withDefault numberOrParse]. unfold min.
    cbn [JS.compare].
    destruct (32 ?= a) eqn:Ea; destruct (32 ?= b) eqn:Eb;
      rewrite LessEq_Fin;
      first [apply Qeq_alt in Ea | apply Qlt_alt in Ea | apply Qgt_alt in Ea];
      first [apply Qeq_alt in Eb | apply Qlt_alt in Eb | apply Qgt_alt in Eb];
      lra.
Qed.

Lemma rf_bounded_idempotent_monotone_witness :
  LessEq ((useResponsive (phone 375 812)).(rf) (Number 20))
         ((useResponsive (phone 375 812)).(rf) (Number 40)).
Proof.
  apply (proj2 (proj2 (rf_bounded_idempotent_monotone
                         (phone 375 812) Undefined 20 40))).
  discriminate.
Defined.

(* ===================================================================== *)
(** ** More on the breakpoint groups                                      *)
(* ===================================================================== *)

(** X12.  When the hook reports a group, the width lies in the interval
    configured under that name, and in no interval of another name. *)
Theorem reported_group_holds_the_width (rn : host) (group : string) :
  (useResponsive rn).(breakpointGroup) = Some group ->
  exists low high,
    In (group, (low, high)) Constants.breakpoints /\
    Within rn.(window).(width) low high /\
    forall group' low' high',
      In (group', (low', high')) Constants.breakpoints ->
      Within rn.(window).(width) low' high' -> group' = group.
Proof.
  cbn [useResponsive breakpointGroup]. intros H.
  destruct (getBreakpointGroup_Some _ _ _ H) as (low & high & Hin & Hw).
  exists low, high. repeat split; try assumption; try apply Hw.
  intros g' l' h' Hin' Hw'.
  exact (breakpoints_disjoint _ _ _ _ _ _ _ Hin' Hin Hw' Hw).
Qed.

Lemma reported_group_holds_the_width_witness :
  exists low high,
    In ("group3", (low, high)) Constants.breakpoints /\
    Within (Fin 700) low high /\
    forall group' low' high',
      In (group', (low', high')) Constants.breakpoints ->
      Within (Fin 700) low' high' -> group' = "group3".
Proof.
  apply (reported_group_holds_the_width (phone 700 812) "group3").
  reflexivity.
Defined.

(** X13.  Over any table, [getBreakpointGroup] returns nothing exactly
    when no interval of the table holds the width, and otherwise the name
    of the first property, in the order in which [for ... in] visits the
    table, whose interval does: the keys that are array indices by
    ascending index, then the other keys as they were written. *)
Theorem first_matching_entry_wins
  (table : list (string * (number * number))) (w : number) :
  (getBreakpointGroup table w = None <->
   forall group low high,
     In (group, (low, high)) table -> ~ Within w low high) /\
  (forall before group low high after,
      forIn table = (before ++ (group, (low, high)) :: after)%list ->
      (forall g l h, In (g, (l, h)) before -> ~ Within w l h) ->
      Within w low high ->
      getBreakpointGroup table w = Some group) /\
  (Forall (fun p => arrayIndex (fst p) = None) table -> forIn table = table).
Proof.
  split; [| split].
  - split; [| apply getBreakpointGroup_None].
    unfold getBreakpointGroup. intros Hnone group low high Hin.
    apply forIn_In in Hin. revert Hnone group low high Hin.
    induction (forIn table) as [| [g [l h]] rest IH]; cbn [firstWithin].
    + intros _ group low high [].
    + destruct (ge w l && le w h) eqn:E; [discriminate |].
      intros Hnone group low high [Hin | Hin].
      * injection Hin as <- <- <-. rewrite <- loop_test, E. discriminate.
      * now apply (IH Hnone group).
  - unfold getBreakpointGroup. intros before.
    generalize (forIn table). clear table.
    induction before as [| [g [l h]] before IH];
      intros visited group low high after -> Hbefore Hw.
    + cbn. apply loop_test in Hw. now rewrite Hw.
    + cbn [app firstWithin].
      destruct (ge w l && le w h) eqn:E.
      * apply loop_test in E. exfalso.
        apply (Hbefore g l h); [now left | assumption].
      * apply (IH _ group low high after eq_refl); [| assumption].
        intros g' l' h' Hin. apply (Hbefore g'). now right.
  - intros Hall. unfold forIn.
    assert (E : indexed table = []).
    { induction Hall as [| p rest Hp _ IH]; cbn [indexed]; [reflexivity |].
      now rewrite Hp. }
    rewrite E. cbn [map app]. apply filter_all.
    revert Hall. apply Forall_impl. now intros p ->.
Qed.

Lemma first_matching_entry_wins_witness :
  getBreakpointGroup
    [("2", (Fin 0, Fin 10)); ("1", (Fin 5, Fin 20))] 7
  = Some "1".
Proof.
  apply (proj1 (proj2 (first_matching_entry_wins
                  [("2", (Fin 0, Fin 10)); ("1", (Fin 5, Fin 20))] 7))
           [] "1" 5 20 [("2", (Fin 0, Fin 10))]).
  - reflexivity.
  - intros g l h [].
  - split; apply LessEq_Fin; discriminate.
Defined.

(** X15.  A wider window never falls into an earlier group: of two
    classified widths, the larger one is in the same group or in a group
    whose interval lies wholly above. *)
Theorem wider_window_later_group (rn1 rn2 : host) (g1 g2 : string) :
  LessEq rn1.(window).(width) rn2.(window).(width) ->
  (useResponsive rn1).(breakpointGroup) = Some g1 ->
  (useResponsive rn2).(breakpointGroup) = Some g2 ->
  g1 = g2 \/
  exists low1 high1 low2 high2,
    In (g1, (low1, high1)) Constants.breakpoints /\
    In (g2, (low2, high2)) Constants.breakpoints /\
    Less high1 low2.
Proof.
  cbn [useResponsive breakpointGroup]. intros Hle H1 H2.
  destruct (getBreakpointGroup_Some _ _ _ H1) as (l1 & h1 & I1 & [L1 U1]).
  destruct (getBreakpointGroup_Some _ _ _ H2) as (l2 & h2 & I2 & [L2 U2]).
  destruct (width (window rn1)) as [| | | w1];
    try (exfalso; clear - I1 L1 U1; cbn in I1;
         repeat (destruct I1 as [I1 | I1];
                 [injection I1 as <- <- <-;
                  first [ solve [destruct L1 as [[]|[]]]
                        | solve [destruct U1 as [[]|[]]] ] |]);
         contradiction).
  destruct (width (window rn2)) as [| | | w2];
    try (exfalso; clear - I2 L2 U2; cbn in I2;
         repeat (destruct I2 as [I2 | I2];
                 [injection I2 as <- <- <-;
                  first [ solve [destruct L2 as [[]|[]]]
                        | solve [destruct U2 as [[]|[]]] ] |]);
         contradiction).
  apply LessEq_Fin in Hle.
  assert (K1 := I1). assert (K2 := I2). cbn in I1, I2.
  repeat (destruct I1 as [I1 | I1]; [injection I1 as <- <- <- |]);
    try contradiction;
    repeat (destruct I2 as [I2 | I2]; [injection I2 as <- <- <- |]);
    try contradiction;
    apply LessEq_Fin in L1, U1, L2, U2;
    first [ left; reflexivity
          | right; do 4 eexists; split; [exact K1 |]; split; [exact K2 |];
            reflexivity
          | exfalso; lra ].
Qed.

Lemma wider_window_later_group_witness :
  "group1" = "group3" \/
  exists low1 high1 low2 high2,
    In ("group1", (low1, high1)) Constants.breakpoints /\
    In ("group3", (low2, high2)) Constants.breakpoints /\
    Less high1 low2.
Proof.
  apply (wider_window_later_group (phone 375 812) (phone 700 812));
    [ apply LessEq_Fin; discriminate | reflexivity | reflexivity ].
Defined.

(* ===================================================================== *)
(** ** More on the percentages                                            *)
(* ===================================================================== *)

(** X18.  Over a height that is a non-negative double, for percentages
    [0 <= p <= q <= 100] and a positive pixel density:
    [0 <= hp(p) <= hp(q)] and [0 <= vh(p) <= vh(q)]. *)
Theorem height_percent_monotone (rn : host) (vp vq : value) (b d p q : Q) :
  rn.(window).(height) = Fin b ->
  rn.(PixelRatio_get) = Fin d ->
  numberOrParse vp = Fin p ->
  numberOrParse vq = Fin q ->
  isDouble b = true ->
  0 <= b -> 0 < d -> 0 <= p -> p <= q -> q <= 100 ->
  let r := useResponsive rn in
  LessEq 0 (r.(hp) vp) /\
  LessEq (r.(hp) vp) (r.(hp) vq) /\
  LessEq 0 (r.(vh) vp) /\
  LessEq (r.(vh) vp) (r.(vh) vq).
Proof.
  intros Hh Hd Hp Hq Db Hb Hd0 Hp0 Hpq Hq100. cbn zeta.
  cbn [useResponsive hp vh]. rewrite Hh, Hd, Hp, Hq.
  destruct (pixels_mono b d p q Hb Hd0 Hp0 Hpq) as [P1 P2].
  destruct (viewport_mono b p q Hb Db Hp0 Hpq) as [V1 V2].
  now repeat split.
Qed.

Lemma height_percent_monotone_witness :
  LessEq 0 ((useResponsive (phone 375 812)).(hp) (Number 17)) /\
  LessEq ((useResponsive (phone 375 812)).(hp) (Number 17))
         ((useResponsive (phone 375 812)).(hp) (Str "40%")) /\
  LessEq 0 ((useResponsive (phone 375 812)).(vh) (Number 17)) /\
  LessEq ((useResponsive (phone 375 812)).(vh) (Number 17))
         ((useResponsive (phone 375 812)).(vh) (Str "40%")).
Proof.
  apply (height_percent_monotone (phone 375 812) (Number 17) (Str "40%")
           812 1 17 40);
    solve [reflexivity | discriminate | vm_compute; reflexivity].
Defined.

(* ===================================================================== *)
(** ** The flags                                                          *)
(* ===================================================================== *)

(** X19.  The hook never reports both orientations, nor both platforms:
    whatever the host, [isLandscape && isPortrait] and
    [isIOS && isAndroid] are false; and on a platform that is neither
    ['ios'] nor ['android'] both platform flags are false. *)
Theorem flags_exclude_each_other (rn : host) :
  let r := useResponsive rn in
  r.(isLandscape) && r.(isPortrait) = false /\
  r.(isIOS) && r.(isAndroid) = false /\
  (rn.(Platform_OS) <> "ios" -> rn.(Platform_OS) <> "android" ->
   r.(isIOS) = false /\ r.(isAndroid) = false).
Proof.
  cbn zeta. cbn [useResponsive isLandscape isPortrait isIOS isAndroid].
  repeat split.
  - destruct (gt _ _) eqn:G; [| reflexivity]. cbn.
    apply not_true_is_false. rewrite lt_Less. apply gt_Less in G.
    now apply Less_asym.
  - destruct (String.eqb (Platform_OS rn) "ios") eqn:E; [| reflexivity].
    apply String.eqb_eq in E. now rewrite E.
  - now apply String.eqb_neq.
  - now apply String.eqb_neq.
Qed.

Lemma flags_exclude_each_other_witness :
  (useResponsive {| window := {| width := 1280; height := 800 |};
                    PixelRatio_get := 1;
                    Platform_OS := "web" |}).(isIOS) = false /\
  (useResponsive {| window := {| width := 1280; height := 800 |};
                    PixelRatio_get := 1;
                    Platform_OS := "web" |}).(isAndroid) = false.
Proof.
  apply (proj2 (proj2 (flags_exclude_each_other
           {| window := {| width := 1280; height := 800 |};
              PixelRatio_get := 1;
              Platform_OS := "web" |}))); discriminate.
Defined.

(* ===================================================================== *)
(** ** Whole widths                                                       *)
(* ===================================================================== *)

(** X14.  Every whole width from 0 to 8192 has a group, and exactly one
    configured interval holds it: the one of that group. *)
Theorem whole_widths_have_one_group (n : Z) (h : Q) :
  (0 <= n <= 8192)%Z ->
  exists group,
    (useResponsive (phone (inject_Z n) h)).(breakpointGroup) = Some group /\
    forall group' low high,
      In (group', (low, high)) Constants.breakpoints ->
      (Within (Fin (inject_Z n)) low high <-> group' = group).
Proof.
  intros Hn.
  destruct (whole_width_classified n h Hn) as (g & lo & hi & Hg & Hin & Hb).
  exists g. split; [exact Hg |].
  assert (Hw : Within (Fin (inject_Z n)) (Fin (inject_Z lo)) (Fin (inject_Z hi))).
  { split; apply LessEq_Fin; rewrite <- Zle_Qle; lia. }
  intros g' low high Hin'. split.
  - intros Hw'. exact (breakpoints_disjoint _ _ _ _ _ _ _ Hin' Hin Hw' Hw).
  - intros ->.
    assert (E : (low, high) = (Fin (inject_Z lo), Fin (inject_Z hi))).
    { clear - Hin Hin'. cbn in Hin, Hin'.
      repeat (destruct Hin as [Hin | Hin];
              [injection Hin as <- <- <- |]); try contradiction;
        repeat (destruct Hin' as [Hin' | Hin'];
                [try discriminate Hin'; try (injection Hin' as <- <-) |]);
        try contradiction; reflexivity. }
    injection E as -> ->. exact Hw.
Qed.

Lemma whole_widths_have_one_group_witness :
  exists group,
    (useResponsive (phone (inject_Z 768) 1024)).(breakpointGroup)
    = Some group /\
    forall group' low high,
      In (group', (low, high)) Constants.breakpoints ->
      (Within (Fin (inject_Z 768)) low high <-> group' = group).
Proof. apply (whole_widths_have_one_group 768 1024). lia. Defined.
